(** * Backtracking Sudoku solver with MRV cell selection

    Shallow embedding of [Q3-Sudoku_Solver-Solution.py]: the validator
    [is_valid], the cell selector [find_empty], the search engine [solve],
    the entry point [solve_sudoku] and [analyze_board_complexity].

    A grid is a Python list of row lists of integers: [list (list Z)].
    Positions are pairs of indices.  The three inner functions are closures
    that [solve_sudoku] only calls once its shape check has passed, so every
    index they use lies inside the grid; reads are written with a default
    and the statements below are about 9x9 grids. *)

From stdpp Require Import base numbers list sorting strings.

Open Scope Z_scope.

Abbreviation board := (list (list Z)).
Abbreviation pos := (nat * nat)%type.

(** ** Grid access *)

(** [board[i][j]] *)
Definition cell (b : board) (i j : nat) : Z :=
  default 0 (b !! i ≫= (.!! j)).

(** [board[i][j] = v]: the row object at index [i] is updated in place. *)
Definition set_cell (b : board) (i j : nat) (v : Z) : board :=
  alter (<[j := v]>) i b.

(** [range(1, 10)] *)
Definition digits : list Z := seqZ 1 9.

(** ** Validator *)

Definition is_valid (b : board) (num : Z) (p : pos) : bool :=
  let '(row, col) := p in
  (* row check *)
  forallb (λ x, negb (bool_decide (cell b row x = num) && bool_decide (col ≠ x)))
          (seq 0 9)
  (* column check *)
  && forallb (λ x, negb (bool_decide (cell b x col = num) && bool_decide (row ≠ x)))
             (seq 0 9)
  (* 3x3 box check *)
  && (let box_x := (col / 3)%nat in
      let box_y := (row / 3)%nat in
      forallb (λ i,
        forallb (λ j, negb (bool_decide (cell b i j = num)
                            && bool_decide ((i, j) ≠ p)))
                (seq (box_x * 3) 3))
        (seq (box_y * 3) 3)).

(** ** Cell selector *)

(** [sum(1 for num in range(1, 10) if is_valid(board, num, (i, j)))] *)
Definition possibilities (b : board) (p : pos) : nat :=
  length (List.filter (λ num, is_valid b num p) digits).

(** The pairs [(i, j)] in the order the two nested [for] loops visit them. *)
Definition cells : list pos :=
  i ← seq 0 9; j ← seq 0 9; [(i, j)].

(** The loop body of [find_empty], over the positions still to visit, with
    the two loop variables [min_possibilities] and [min_pos]. *)
Fixpoint find_empty_from (b : board) (todo : list pos)
    (min_possibilities : nat) (min_pos : option pos) : option pos :=
  match todo with
  | [] => min_pos
  | p :: todo =>
      if bool_decide (cell b p.1 p.2 = 0) then
        let k := possibilities b p in
        if bool_decide (k < min_possibilities)%nat then
          if bool_decide (k = 1%nat) then Some p
          else find_empty_from b todo k (Some p)
        else find_empty_from b todo min_possibilities min_pos
      else find_empty_from b todo min_possibilities min_pos
  end.

Definition find_empty (b : board) : option pos :=
  find_empty_from b cells 10 None.

(** ** Search engine *)

(** The [for num in range(1, 10)] loop of [solve] at the selected cell.  The
    grid is threaded through: after a failed recursive call the cell is reset
    on the grid that call left behind.  [rec] is the recursive call. *)
Fixpoint try_digits (rec : board → option (bool * board))
    (row col : nat) (nums : list Z) (b : board) : option (bool * board) :=
  match nums with
  | [] => Some (false, b)
  | num :: nums =>
      if is_valid b num (row, col) then
        match rec (set_cell b row col num) with
        | None => None
        | Some (true, b') => Some (true, b')
        | Some (false, b') => try_digits rec row col nums (set_cell b' row col 0)
        end
      else try_digits rec row col nums b
  end.

(** [solve(board)]: the result is the returned boolean and the grid as the
    call leaves it; [None] only when the recursion budget [fuel] is used up. *)
Fixpoint solve (fuel : nat) (b : board) : option (bool * board) :=
  match fuel with
  | O => None
  | S fuel =>
      match find_empty b with
      | None => Some (true, b)
      | Some (row, col) => try_digits (solve fuel) row col digits b
      end
  end.

(** ** Entry point *)

(** [not board or len(board) != 9 or any(len(row) != 9 for row in board)] *)
Definition bad_shape (b : board) : bool :=
  bool_decide (b = [])
  || bool_decide (length b ≠ 9%nat)
  || existsb (λ row, bool_decide (length row ≠ 9%nat)) b.

(** A grid has at most 81 empty cells, and every level of the recursion
    fills one: 82 nested calls are never exceeded ([solve_sudoku_budget]). *)
Definition search_budget : nat := 82.

Definition solve_sudoku (b : board) : option board :=
  if bad_shape b then None
  else
    let board_copy := (λ row : list Z, row) <$> b in
    match solve search_budget board_copy with
    | Some (true, b') => Some b'
    | _ => None
    end.

(** ** Complexity summary *)

Record complexity := Complexity {
  empty_cells : nat;
  complexity_estimate : string;
  branching_factor : nat
}.

(** [row.count(0)] *)
Definition count_zero (row : list Z) : nat :=
  length (List.filter (λ v, bool_decide (v = 0)) row).

(** [sum(row.count(0) for row in board)] *)
Definition empty_count (b : board) : nat :=
  sum_list (count_zero <$> b).

Definition analyze_board_complexity (b : board) : complexity :=
  let n := empty_count b in
  {| empty_cells := n;
     complexity_estimate :=
       if bool_decide (n < 40)%nat then "Easy"
       else if bool_decide (n < 50)%nat then "Medium"
       else if bool_decide (n < 55)%nat then "Hard"
       else "Expert";
     branching_factor := (n * 9)%nat |}.

(** ** The example grids of the source *)

Definition easy_board : board :=
  [ [5; 3; 0; 0; 7; 0; 0; 0; 0];
    [6; 0; 0; 1; 9; 5; 0; 0; 0];
    [0; 9; 8; 0; 0; 0; 0; 6; 0];
    [8; 0; 0; 0; 6; 0; 0; 0; 3];
    [4; 0; 0; 8; 0; 3; 0; 0; 1];
    [7; 0; 0; 0; 2; 0; 0; 0; 6];
    [0; 6; 0; 0; 0; 0; 2; 8; 0];
    [0; 0; 0; 4; 1; 9; 0; 0; 5];
    [0; 0; 0; 0; 8; 0; 0; 7; 9] ].

Definition easy_solution : board :=
  [ [5; 3; 4; 6; 7; 8; 9; 1; 2];
    [6; 7; 2; 1; 9; 5; 3; 4; 8];
    [1; 9; 8; 3; 4; 2; 5; 6; 7];
    [8; 5; 9; 7; 6; 1; 4; 2; 3];
    [4; 2; 6; 8; 5; 3; 7; 9; 1];
    [7; 1; 3; 9; 2; 4; 8; 5; 6];
    [9; 6; 1; 5; 3; 7; 2; 8; 4];
    [2; 8; 7; 4; 1; 9; 6; 3; 5];
    [3; 4; 5; 2; 8; 6; 1; 7; 9] ].

(** ** Further grids used below *)

(** [easy_solution] with its first entry overwritten by 3: a complete grid
    of digits whose first row holds 3 twice. *)
Definition conflict_grid : board :=
  [ [3; 3; 4; 6; 7; 8; 9; 1; 2];
    [6; 7; 2; 1; 9; 5; 3; 4; 8];
    [1; 9; 8; 3; 4; 2; 5; 6; 7];
    [8; 5; 9; 7; 6; 1; 4; 2; 3];
    [4; 2; 6; 8; 5; 3; 7; 9; 1];
    [7; 1; 3; 9; 2; 4; 8; 5; 6];
    [9; 6; 1; 5; 3; 7; 2; 8; 4];
    [2; 8; 7; 4; 1; 9; 6; 3; 5];
    [3; 4; 5; 2; 8; 6; 1; 7; 9] ].

(** [conflict_grid] with three cells emptied: a puzzle whose first row holds
    3 in two filled cells. *)
Definition conflict_puzzle : board :=
  [ [3; 3; 4; 6; 7; 8; 9; 1; 0];
    [6; 7; 2; 1; 9; 5; 3; 4; 8];
    [1; 9; 8; 3; 4; 2; 5; 6; 7];
    [8; 5; 9; 7; 6; 1; 4; 2; 3];
    [4; 2; 6; 8; 0; 3; 7; 9; 1];
    [7; 1; 3; 9; 2; 4; 8; 5; 6];
    [9; 6; 1; 5; 3; 7; 2; 8; 4];
    [2; 8; 7; 4; 1; 9; 6; 3; 5];
    [3; 4; 5; 2; 8; 6; 1; 7; 0] ].

(** [easy_board] with its first entry overwritten by 10. *)
Definition wide_puzzle : board :=
  [ [10; 3; 0; 0; 7; 0; 0; 0; 0];
    [6; 0; 0; 1; 9; 5; 0; 0; 0];
    [0; 9; 8; 0; 0; 0; 0; 6; 0];
    [8; 0; 0; 0; 6; 0; 0; 0; 3];
    [4; 0; 0; 8; 0; 3; 0; 0; 1];
    [7; 0; 0; 0; 2; 0; 0; 0; 6];
    [0; 6; 0; 0; 0; 0; 2; 8; 0];
    [0; 0; 0; 4; 1; 9; 0; 0; 5];
    [0; 0; 0; 0; 8; 0; 0; 7; 9] ].

Definition wide_solution : board :=
  [ [10; 3; 4; 6; 7; 8; 9; 1; 2];
    [6; 7; 2; 1; 9; 5; 3; 4; 8];
    [1; 9; 8; 3; 4; 2; 5; 6; 7];
    [8; 5; 9; 7; 6; 1; 4; 2; 3];
    [4; 2; 6; 8; 5; 3; 7; 9; 1];
    [7; 1; 3; 9; 2; 4; 8; 5; 6];
    [9; 6; 1; 5; 3; 7; 2; 8; 4];
    [2; 8; 7; 4; 1; 9; 6; 3; 5];
    [3; 4; 5; 2; 8; 6; 1; 7; 9] ].

(** A grid without conflict whose first empty cell, (0, 0), has the single
    candidate 1 and whose last cell, (8, 8), is empty without candidate. *)
Definition forced_first : board :=
  [ [0; 2; 3; 4; 5; 6; 7; 8; 9];
    [0; 0; 0; 0; 0; 0; 0; 0; 0];
    [0; 0; 0; 0; 0; 0; 0; 0; 0];
    [0; 0; 0; 0; 0; 0; 0; 0; 0];
    [0; 0; 0; 0; 0; 0; 0; 0; 0];
    [0; 0; 0; 0; 0; 0; 0; 0; 0];
    [0; 0; 0; 0; 0; 0; 0; 0; 0];
    [0; 0; 0; 0; 0; 0; 0; 0; 0];
    [2; 3; 4; 5; 6; 7; 8; 1; 0] ].

(** Eight rows of nine entries. *)
Definition short_board : board :=
  [ [5; 3; 0; 0; 7; 0; 0; 0; 0];
    [6; 0; 0; 1; 9; 5; 0; 0; 0];
    [0; 9; 8; 0; 0; 0; 0; 6; 0];
    [8; 0; 0; 0; 6; 0; 0; 0; 3];
    [4; 0; 0; 8; 0; 3; 0; 0; 1];
    [7; 0; 0; 0; 2; 0; 0; 0; 6];
    [0; 6; 0; 0; 0; 0; 2; 8; 0];
    [0; 0; 0; 4; 1; 9; 0; 0; 5] ].

(** Nine rows, the first of ten entries. *)
Definition long_row_board : board :=
  [ [5; 3; 0; 0; 7; 0; 0; 0; 0; 0];
    [6; 0; 0; 1; 9; 5; 0; 0; 0];
    [0; 9; 8; 0; 0; 0; 0; 6; 0];
    [8; 0; 0; 0; 6; 0; 0; 0; 3];
    [4; 0; 0; 8; 0; 3; 0; 0; 1];
    [7; 0; 0; 0; 2; 0; 0; 0; 6];
    [0; 6; 0; 0; 0; 0; 2; 8; 0];
    [0; 0; 0; 4; 1; 9; 0; 0; 5];
    [0; 0; 0; 0; 8; 0; 0; 7; 9] ].

(** The 9x9 grid whose first [n] cells in row-major order are empty and whose
    other cells hold 1. *)
Definition blanked (n : nat) : board :=
  (λ i, (λ j, if bool_decide (i * 9 + j < n)%nat then 0 else 1) <$> seq 0 9)
    <$> seq 0 9.

(** ** Properties of grids *)

(** Exactly 9 rows of exactly 9 entries. *)
Definition shape9 (b : board) : Prop :=
  length b = 9%nat ∧ Forall (λ row, length row = 9%nat) b.

(** Every entry is 0 (empty) or a digit 1-9. *)
Definition in_range (b : board) : Prop :=
  Forall (Forall (λ v, 0 ≤ v ≤ 9)) b.

Definition empty_at (b : board) (p : pos) : Prop := cell b p.1 p.2 = 0.

(** The 27 units of a grid: 9 rows, 9 columns, 9 boxes, each as the list of
    its positions. *)
Definition row_cells (i : nat) : list pos := (λ j, (i, j)) <$> seq 0 9.
Definition col_cells (j : nat) : list pos := (λ i, (i, j)) <$> seq 0 9.
Definition box_cells (k : nat) : list pos :=
  i ← seq (k / 3 * 3) 3; j ← seq (k `mod` 3 * 3) 3; [(i, j)].
Definition units : list (list pos) :=
  (row_cells <$> seq 0 9) ++ (col_cells <$> seq 0 9) ++ (box_cells <$> seq 0 9).

Definition values (b : board) (u : list pos) : list Z :=
  (λ p, cell b p.1 p.2) <$> u.

(** How many times [d] occurs in [l]. *)
Definition occurrences (d : Z) (l : list Z) : nat :=
  length (List.filter (λ v, bool_decide (v = d)) l).

(** Row, column and box uniqueness for the non-empty cells: inside every
    unit the values of the non-empty cells are pairwise distinct. *)
Definition uniqueness (b : board) : Prop :=
  Forall (λ u, NoDup (List.filter (λ v, bool_decide (v ≠ 0)) (values b u))) units.

(** Every row, column and box contains each digit 1-9 exactly once. *)
Definition valid_solution (b : board) : Prop :=
  shape9 b ∧
  Forall (λ u, Forall (λ d, occurrences d (values b u) = 1%nat) digits) units.

(** Two positions share a row, a column or a box. *)
Definition same_unit (p q : pos) : Prop :=
  p.1 = q.1 ∨ p.2 = q.2 ∨ ((p.1 / 3)%nat = (q.1 / 3)%nat ∧ (p.2 / 3)%nat = (q.2 / 3)%nat).

(** [p] is visited before [q] by the row-major scan. *)
Definition row_major (p q : pos) : Prop :=
  (p.1 < q.1)%nat ∨ (p.1 = q.1 ∧ (p.2 < q.2)%nat).

(** Cells filled in [b0] hold the same value in [b]. *)
Definition keeps (b0 b : board) : Prop :=
  ∀ i j, cell b0 i j ≠ 0 → cell b i j = cell b0 i j.

Global Instance shape9_dec b : Decision (shape9 b).
Proof. unfold shape9. apply _. Defined.

Global Instance in_range_dec b : Decision (in_range b).
Proof. unfold in_range. apply _. Defined.

Global Instance uniqueness_dec b : Decision (uniqueness b).
Proof. unfold uniqueness. apply _. Defined.

Global Instance valid_solution_dec b : Decision (valid_solution b).
Proof. unfold valid_solution. apply _. Defined.

Global Instance same_unit_dec p q : Decision (same_unit p q).
Proof. unfold same_unit. apply _. Defined.

Global Instance row_major_dec p q : Decision (row_major p q).
Proof. unfold row_major. apply _. Defined.

(** ** The search with its history

    [solve] again, recording every grid the search passes through: the grid
    at entry to each call (for a recursive call, the grid right after the
    trial placement), the grid after each undo, and the grid at exit. *)
Module Trace.

(** The returned boolean and final grid, without the history. *)
Definition outcome (x : bool * board * list board) : bool * board :=
  (x.1.1, x.1.2).

Fixpoint try_digits (rec : board → option (bool * board * list board))
    (row col : nat) (nums : list Z) (b : board)
    : option (bool * board * list board) :=
  match nums with
  | [] => Some (false, b, [])
  | num :: nums =>
      if is_valid b num (row, col) then
        match rec (set_cell b row col num) with
        | None => None
        | Some (true, b', t) => Some (true, b', t)
        | Some (false, b', t) =>
            let b0 := set_cell b' row col 0 in
            match try_digits rec row col nums b0 with
            | None => None
            | Some (r, b1, t') => Some (r, b1, t ++ b0 :: t')
            end
        end
      else try_digits rec row col nums b
  end.

Fixpoint solve (fuel : nat) (b : board) : option (bool * board * list board) :=
  match fuel with
  | O => None
  | S fuel =>
      match find_empty b with
      | None => Some (true, b, [b; b])
      | Some (row, col) =>
          match try_digits (solve fuel) row col digits b with
          | None => None
          | Some (r, b', t) => Some (r, b', b :: t ++ [b'])
          end
      end
  end.

(** The entry point with the history of the search it started, if any. *)
Definition solve_sudoku (b : board) : option board * list board :=
  if bad_shape b then (None, [])
  else
    let board_copy := (λ row : list Z, row) <$> b in
    match solve search_budget board_copy with
    | Some (true, b', t) => (Some b', t)
    | Some (false, _, t) => (None, t)
    | None => (None, [])
    end.

End Trace.

(** ** The solver over a store of row objects

    In Python the rows of a grid are mutable list objects and a grid holds
    references to them; two grids, or two rows of one grid, may share a row
    object.  Here the store maps an address to the row object at it, a grid
    is the sequence of addresses its outer list holds, allocation appends to
    the store.  The code never writes to an outer list, only to rows. *)
Module Heap.

Abbreviation loc := nat.
Abbreviation store := (list (list Z)).
Abbreviation grid := (list nat).

(** The contents a grid denotes in a store. *)
Definition deref (σ : store) (g : grid) : board :=
  (λ l, default [] (σ !! l)) <$> g.

(** [board[row][col] = v]: writes to the row object [board[row]] refers to. *)
Definition write (σ : store) (g : grid) (row col : nat) (v : Z) : store :=
  match g !! row with
  | Some l => alter (<[col := v]>) l σ
  | None => σ
  end.

(** [[row[:] for row in board]]: a fresh row object for every entry of the
    outer list, in order. *)
Fixpoint copy_rows (σ : store) (g : grid) : store * grid :=
  match g with
  | [] => (σ, [])
  | l :: g =>
      let '(σ', g') := copy_rows (σ ++ [default [] (σ !! l)]) g in
      (σ', length σ :: g')
  end.

Fixpoint try_digits (rec : store → option (bool * store)) (g : grid)
    (row col : nat) (nums : list Z) (σ : store) : option (bool * store) :=
  match nums with
  | [] => Some (false, σ)
  | num :: nums =>
      if is_valid (deref σ g) num (row, col) then
        match rec (write σ g row col num) with
        | None => None
        | Some (true, σ') => Some (true, σ')
        | Some (false, σ') => try_digits rec g row col nums (write σ' g row col 0)
        end
      else try_digits rec g row col nums σ
  end.

Fixpoint solve (fuel : nat) (g : grid) (σ : store) : option (bool * store) :=
  match fuel with
  | O => None
  | S fuel =>
      match find_empty (deref σ g) with
      | None => Some (true, σ)
      | Some (row, col) => try_digits (solve fuel g) g row col digits σ
      end
  end.

(** [solve_sudoku(board)]: the returned reference (or [None]) and the store
    the call leaves behind. *)
Definition solve_sudoku (σ : store) (g : grid) : option grid * store :=
  if bad_shape (deref σ g) then (None, σ)
  else
    let '(σ1, board_copy) := copy_rows σ g in
    match solve search_budget board_copy σ1 with
    | Some (true, σ2) => (Some board_copy, σ2)
    | Some (false, σ2) => (None, σ2)
    | None => (None, σ1)
    end.

(** Every reference of the grid points into the store. *)
Definition allocated (σ : store) (g : grid) : Prop :=
  Forall (λ l, (l < length σ)%nat) g.

(** The grid [[[0] * 9] * 9]: nine references to one row object. *)
Definition shared_row_store : store := [[0; 0; 0; 0; 0; 0; 0; 0; 0]].
Definition shared_row_grid : grid := [0; 0; 0; 0; 0; 0; 0; 0; 0]%nat.

Global Instance allocated_dec σ g : Decision (allocated σ g).
Proof. unfold allocated. apply _. Defined.

End Heap.

(** ** The batch analysis

    [solve_and_analyze_boards], over the store of row objects.  A dictionary
    is the list of its items in insertion order, with pairwise distinct keys.
    The two readings of the clock the loop takes per grid come from outside
    the program: [now k] is what the [k]-th call of [time.time()] returns,
    [elapsed] the subtraction of two readings and [round3] the rounding to
    three places. *)
Module Batch.

(** [d[k] = v]: the value of an existing key is replaced where it stands, a
    new key goes to the end. *)
Fixpoint dict_set {V} (k : string) (v : V) (d : list (string * V))
    : list (string * V) :=
  match d with
  | [] => [(k, v)]
  | (k', v') :: d' =>
      if decide (k = k') then (k, v) :: d' else (k', v') :: dict_set k v d'
  end.

Section clock.
Context {time : Type}.
Variable now : nat → time.
Variable elapsed : time → time → time.
Variable round3 : time → time.

Record report := Report {
  solution : option Heap.grid;
  time_taken : time;
  complexity_analysis : complexity
}.

(** The loop over [boards_dict.items()], with the store, the number of clock
    readings taken so far and the dictionary [results]. *)
Fixpoint analyze_loop (items : list (string * Heap.grid)) (σ : Heap.store)
    (ticks : nat) (results : list (string * report))
    : list (string * report) * Heap.store * nat :=
  match items with
  | [] => (results, σ, ticks)
  | (difficulty, board) :: items =>
      let start_time := now ticks in
      let '(solution, σ1) := Heap.solve_sudoku σ board in
      let solve_time := elapsed (now (S ticks)) start_time in
      let complexity := analyze_board_complexity (Heap.deref σ1 board) in
      analyze_loop items σ1 (S (S ticks))
        (dict_set difficulty
           {| solution := solution;
              time_taken := round3 solve_time;
              complexity_analysis := complexity |}
           results)
  end.

Definition solve_and_analyze_boards (boards_dict : list (string * Heap.grid))
    (σ : Heap.store) : list (string * report) * Heap.store * nat :=
  analyze_loop boards_dict σ 0 [].

End clock.

Global Arguments Report {time}.
Global Arguments solution {time}.
Global Arguments time_taken {time}.
Global Arguments complexity_analysis {time}.

End Batch.

(** * Subset sum by backtracking

    Shallow embedding of [Q2-Subset_Sum-Problem_Solution.py]. *)
Module SubsetSum.

(** The truth value of [result] in [if result:]: [None] and the empty list
    are false. *)
Definition truthy (result : option (list Z)) : bool :=
  match result with
  | Some (_ :: _) => true
  | _ => false
  end.

(** [backtrack(index, current_sum, current_subset)], with the numbers from
    [index] on, [numbers[index:]], in place of [index]: [index >= len(numbers)]
    is the empty list, [numbers[index]] its head and [index + 1] its tail. *)
Fixpoint backtrack (target : Z) (rest : list Z) (current_sum : Z)
    (current_subset : list Z) : option (list Z) :=
  if bool_decide (current_sum = target) then Some current_subset
  else
    match rest with
    | [] => None
    | x :: rest =>
        if bool_decide (current_sum > target) then None
        else
          let result :=
            backtrack target rest (current_sum + x) (current_subset ++ [x]) in
          if truthy result then result
          else backtrack target rest current_sum current_subset
    end.

(** [numbers.sort(reverse=True)]: the list in descending order. *)
Definition sort_reverse (numbers : list Z) : list Z :=
  merge_sort Z.ge numbers.

(** [subset_sum(numbers, target)]: the returned value, and the caller's list
    as the call leaves it (it is sorted in place). *)
Definition subset_sum (numbers : list Z) (target : Z)
    : option (list Z) * list Z :=
  let numbers := sort_reverse numbers in
  (backtrack target numbers 0 [], numbers).

(** [sum(l)] *)
Definition total (l : list Z) : Z := foldr Z.add 0 l.

End SubsetSum.

(** * N-Queens by backtracking

    Shallow embedding of [Q1_N-Queens_Problem-Solution.py], for a number
    [n] of queens that is a natural number.  The board is a grid of 0 and 1,
    read and written with [cell] and [set_cell]; every index the code uses
    lies inside the n x n board it builds. *)
Module NQueens.

(** [is_safe(board, row, col)]; [range(row-1, -1, -1)] is [row-1, ..., 0],
    [range(col+1, n)] is [col+1, ..., n-1], and [zip] stops with the shorter
    of its two ranges. *)
Definition is_safe (n : nat) (b : board) (row col : nat) : bool :=
  (* column *)
  forallb (λ i, negb (bool_decide (cell b i col = 1))) (seq 0 row)
  (* upper left diagonal *)
  && forallb (λ ij : nat * nat, negb (bool_decide (cell b ij.1 ij.2 = 1)))
       (zip (reverse (seq 0 row)) (reverse (seq 0 col)))
  (* upper right diagonal *)
  && forallb (λ ij : nat * nat, negb (bool_decide (cell b ij.1 ij.2 = 1)))
       (zip (reverse (seq 0 row)) (seq (col + 1) (n - (col + 1)))).

(** The [for col in range(n)] loop of [solve] in row [row], over the columns
    still to try; [rec] is the recursive call [solve(board, row + 1)]. *)
Fixpoint try_cols (rec : board → option (bool * board)) (n row : nat)
    (cols : list nat) (b : board) : option (bool * board) :=
  match cols with
  | [] => Some (false, b)
  | col :: cols =>
      if is_safe n b row col then
        match rec (set_cell b row col 1) with
        | None => None
        | Some (true, b') => Some (true, b')
        | Some (false, b') => try_cols rec n row cols (set_cell b' row col 0)
        end
      else try_cols rec n row cols b
  end.

(** [solve(board, row)]: the returned boolean and the board as the call
    leaves it; [None] only when the recursion budget [fuel] is used up. *)
Fixpoint solve (fuel n : nat) (b : board) (row : nat) : option (bool * board) :=
  match fuel with
  | O => None
  | S fuel =>
      if bool_decide (n ≤ row)%nat then Some (true, b)
      else try_cols (λ b', solve fuel n b' (row + 1)) n row (seq 0 n) b
  end.

(** [solve_n_queens(n)]; the recursion goes through the rows 0 to [n], one
    call each. *)
Definition solve_n_queens (n : nat) : option board :=
  let board := replicate n (replicate n 0) in
  match solve (S n) n board 0 with
  | Some (true, b) => Some b
  | _ => None
  end.

(** ** Placements *)

(** Queens at (i, c) and (i', c') in different rows do not attack each other:
    different columns, different diagonals, different anti-diagonals. *)
Definition compatible (i c i' c' : nat) : Prop :=
  c ≠ c' ∧ (i + c' ≠ i' + c)%nat ∧ (i + c ≠ i' + c')%nat.

(** [f] gives, for each of the rows below [row], the column of a queen on an
    n x n board, and no two of these queens attack each other. *)
Definition placed (n row : nat) (f : nat → nat) : Prop :=
  (∀ i, (i < row)%nat → (f i < n)%nat)
  ∧ ∀ i i', (i < i')%nat → (i' < row)%nat → compatible i (f i) i' (f i').

(** [b] is the n x n board with a queen (1) at column [f i] of every row [i]
    below [row] and 0 everywhere else. *)
Definition shows (n row : nat) (f : nat → nat) (b : board) : Prop :=
  length b = n ∧ Forall (λ r, length r = n) b
  ∧ ∀ i j, (i < n)%nat → (j < n)%nat →
      cell b i j = if bool_decide ((i < row)%nat ∧ j = f i) then 1 else 0.

(** [f] with a queen at column [col] of row [row]. *)
Definition place (f : nat → nat) (row col : nat) : nat → nat :=
  λ i, if bool_decide (i = row) then col else f i.

(** [g] agrees with [f] on the rows below [row]. *)
Definition extends (row : nat) (f g : nat → nat) : Prop :=
  ∀ i, (i < row)%nat → g i = f i.

(** [g] comes before [g'], or is equal to it, in the lexicographic order on
    the columns of the rows 0 to n-1. *)
Definition lex_le (n : nat) (g g' : nat → nat) : Prop :=
  (∀ i, (i < n)%nat → g i = g' i)
  ∨ ∃ i, (i < n)%nat ∧ (∀ k, (k < i)%nat → g k = g' k) ∧ (g i < g' i)%nat.

(** What a call of [solve] on row [row] with the board of [f] comes to: it
    returns; false with the board as it was, when no non-attacking placement
    of n queens extends [f]; true with the board of such a placement, the
    first one in lexicographic order. *)
Definition search_result (n row : nat) (f : nat → nat) (b : board)
    (res : option (bool * board)) : Prop :=
  ∃ r b', res = Some (r, b')
    ∧ (r = false → b' = b ∧ ¬ ∃ g, extends row f g ∧ placed n n g)
    ∧ (r = true → ∃ g, extends row f g ∧ placed n n g ∧ shows n n g b'
                       ∧ ∀ g', extends row f g' → placed n n g' → lex_le n g g').

End NQueens.

(** * Basic facts *)

Global Arguments cell : simpl never.
Global Arguments set_cell : simpl never.
Global Arguments is_valid : simpl never.
Global Arguments possibilities : simpl never.
Global Arguments find_empty : simpl never.
Global Arguments digits : simpl never.

Example solve_easy : solve_sudoku easy_board = Some easy_solution.
Proof. vm_compute. reflexivity. Qed.

Lemma shape9_rows b i :
  shape9 b → (i < 9)%nat → ∃ row, b !! i = Some row ∧ length row = 9%nat.
Proof.
  intros [Hl Hr] Hi. destruct (lookup_lt_is_Some_2 b i) as [row Hrow]; [lia|].
  exists row. split; [done|]. by eapply (Forall_lookup_1 _ _ _ _ Hr).
Qed.

Lemma bad_shape_false b : bad_shape b = false ↔ shape9 b.
Proof.
  unfold bad_shape, shape9. rewrite !orb_false_iff, !bool_decide_eq_false.
  split.
  - intros [[_ Hl] He]. split; [lia|].
    apply Forall_forall. intros row Hin.
    destruct (decide (length row = 9%nat)) as [|Hne]; [done|].
    assert (existsb (λ row, bool_decide (length row ≠ 9%nat)) b = true) as Ht; [|congruence].
    apply existsb_exists. exists row. split; [by apply list_elem_of_In|].
    by apply bool_decide_eq_true.
  - intros [Hl Hr]. repeat split; [by destruct b|lia|].
    apply not_true_is_false. intros (row & Hin & Hb)%existsb_exists.
    apply bool_decide_eq_true in Hb. apply list_elem_of_In in Hin.
    rewrite Forall_forall in Hr. by apply Hb, Hr.
Qed.

Lemma cell_lookup b i j row : b !! i = Some row → cell b i j = default 0 (row !! j).
Proof. unfold cell. by intros ->. Qed.

Lemma cell_set_cell_ne b i j v i' j' :
  (i, j) ≠ (i', j') → cell (set_cell b i j v) i' j' = cell b i' j'.
Proof.
  intros Hne. unfold cell, set_cell. rewrite list_lookup_alter.
  destruct (decide (i = i')) as [->|]; [|done].
  destruct (b !! i') as [row|]; [simpl|done].
  rewrite list_lookup_insert_ne; [done|congruence].
Qed.

Lemma cell_set_cell_eq b i j v :
  shape9 b → (i < 9)%nat → (j < 9)%nat → cell (set_cell b i j v) i j = v.
Proof.
  intros Hb Hi Hj. destruct (shape9_rows b i Hb Hi) as (row & Hrow & Hlen).
  unfold cell, set_cell. rewrite list_lookup_alter, decide_True by done.
  rewrite Hrow. simpl. rewrite list_lookup_insert_eq; [done|lia].
Qed.

Lemma shape9_set_cell b i j v : shape9 b → shape9 (set_cell b i j v).
Proof.
  intros [Hl Hr]. unfold set_cell. split; [by rewrite length_alter|].
  apply Forall_alter; [done|]. intros row _ Hrow. by rewrite length_insert.
Qed.

Lemma set_cell_set_cell b i j v w :
  set_cell (set_cell b i j v) i j w = set_cell b i j w.
Proof.
  unfold set_cell. rewrite list_alter_alter_eq. apply list_alter_ext; [|done].
  intros row _. simpl. apply list_insert_insert_eq.
Qed.

(** Resetting an empty cell to empty changes nothing. *)
Lemma set_cell_empty b i j : cell b i j = 0 → set_cell b i j 0 = b.
Proof.
  unfold cell, set_cell. intros Hc. apply list_eq. intros k.
  rewrite list_lookup_alter. destruct (decide (i = k)) as [->|]; [|done].
  destruct (b !! k) as [row|]; [simpl in *|done]. f_equal.
  apply list_insert_id'. intros Hlt.
  destruct (lookup_lt_is_Some_2 row j Hlt) as [x Hx]. rewrite Hx in Hc |- *.
  simpl in Hc. by subst.
Qed.

Lemma set_cell_undo b i j v : cell b i j = 0 → set_cell (set_cell b i j v) i j 0 = b.
Proof. intros. rewrite set_cell_set_cell. by apply set_cell_empty. Qed.

Lemma in_range_set_cell b i j v : 0 ≤ v ≤ 9 → in_range b → in_range (set_cell b i j v).
Proof.
  intros Hv Hb. unfold in_range, set_cell. apply Forall_alter; [done|].
  intros row _ Hrow. by apply Forall_insert.
Qed.

Lemma in_range_cell b i j : in_range b → 0 ≤ cell b i j ≤ 9.
Proof.
  intros Hb. unfold cell. destruct (b !! i) as [row|] eqn:Hrow; [simpl|simpl; lia].
  destruct (row !! j) as [v|] eqn:Hv; [simpl|simpl; lia].
  unfold in_range in Hb. rewrite Forall_forall in Hb.
  assert (Forall (λ v, 0 ≤ v ≤ 9) row) as Hr.
  { apply Hb, list_elem_of_lookup. eauto. }
  rewrite Forall_forall in Hr. apply Hr, list_elem_of_lookup. eauto.
Qed.

Lemma elem_of_cells p : p ∈ cells ↔ (p.1 < 9)%nat ∧ (p.2 < 9)%nat.
Proof.
  unfold cells. rewrite list_elem_of_bind. split.
  - intros (i & (j & Hp & Hj%elem_of_seq)%list_elem_of_bind & Hi%elem_of_seq).
    apply list_elem_of_singleton in Hp. subst. simpl. lia.
  - intros [Hi Hj]. exists p.1. split; [|apply elem_of_seq; lia].
    apply list_elem_of_bind. exists p.2. split; [|apply elem_of_seq; lia].
    destruct p. apply list_elem_of_singleton. done.
Qed.

Lemma NoDup_cells : NoDup cells.
Proof. apply (bool_decide_unpack _). vm_compute. exact I. Qed.

(** ** The validator *)

Lemma box_range (r i : nat) :
  (r / 3 * 3 ≤ i < r / 3 * 3 + 3)%nat ↔ (i / 3)%nat = (r / 3)%nat.
Proof.
  pose proof (Nat.div_mod_eq i 3). pose proof (Nat.div_mod_eq r 3).
  pose proof (Nat.mod_upper_bound i 3). pose proof (Nat.mod_upper_bound r 3).
  lia.
Qed.

Lemma box_in_grid (r i : nat) : (r < 9)%nat → (i / 3)%nat = (r / 3)%nat → (i < 9)%nat.
Proof.
  pose proof (Nat.div_mod_eq i 3). pose proof (Nat.div_mod_eq r 3).
  pose proof (Nat.mod_upper_bound i 3). pose proof (Nat.mod_upper_bound r 3).
  lia.
Qed.

Lemma same_unit_sym p q : same_unit p q → same_unit q p.
Proof. unfold same_unit. intuition congruence. Qed.

(** [is_valid] accepts [num] at a position exactly when no other cell of its
    row, column or box holds [num]. *)
Lemma is_valid_spec b num p :
  p ∈ cells →
  is_valid b num p = true ↔
  ∀ q, q ∈ cells → q ≠ p → same_unit p q → cell b q.1 q.2 ≠ num.
Proof.
  destruct p as [r c]. intros [Hr Hc]%elem_of_cells. simpl in Hr, Hc.
  unfold is_valid. cbv zeta. rewrite !andb_true_iff, !forallb_forall. split.
  - intros [[Hrow Hcol] Hbox] [i j] Hq Hne Hsame Hv.
    apply elem_of_cells in Hq as [Hi Hj].
    unfold same_unit in Hsame. simpl in Hi, Hj, Hsame, Hv.
    destruct Hsame as [<-|[<-|[Hbi Hbj]]].
    + specialize (Hrow j). rewrite <-list_elem_of_In, elem_of_seq in Hrow.
      specialize (Hrow ltac:(lia)).
      rewrite bool_decide_eq_true_2, bool_decide_eq_true_2 in Hrow; [done|congruence|done].
    + specialize (Hcol i). rewrite <-list_elem_of_In, elem_of_seq in Hcol.
      specialize (Hcol ltac:(lia)).
      rewrite bool_decide_eq_true_2, bool_decide_eq_true_2 in Hcol; [done|congruence|done].
    + specialize (Hbox i). rewrite <-list_elem_of_In, elem_of_seq in Hbox.
      specialize (Hbox ltac:(by apply box_range)).
      rewrite forallb_forall in Hbox. specialize (Hbox j).
      rewrite <-list_elem_of_In, elem_of_seq in Hbox.
      specialize (Hbox ltac:(by apply box_range)).
      rewrite bool_decide_eq_true_2, bool_decide_eq_true_2 in Hbox; done.
  - intros H. repeat split.
    + intros x Hx%list_elem_of_In%elem_of_seq.
      apply negb_true_iff, andb_false_iff.
      destruct (decide (c = x)) as [->|Hne];
        [right; by apply bool_decide_eq_false_2; intros ?|left].
      apply bool_decide_eq_false_2.
      apply (H (r, x)); [apply elem_of_cells; simpl; lia|congruence|by left].
    + intros x Hx%list_elem_of_In%elem_of_seq.
      apply negb_true_iff, andb_false_iff.
      destruct (decide (r = x)) as [->|Hne];
        [right; by apply bool_decide_eq_false_2; intros ?|left].
      apply bool_decide_eq_false_2.
      apply (H (x, c)); [apply elem_of_cells; simpl; lia|congruence|right; by left].
    + intros i Hi%list_elem_of_In%elem_of_seq%box_range.
      apply forallb_forall. intros j Hj%list_elem_of_In%elem_of_seq%box_range.
      apply negb_true_iff, andb_false_iff.
      destruct (decide ((i, j) = (r, c))) as [Heq|Hne];
        [right; by apply bool_decide_eq_false_2; intros ?|left].
      apply bool_decide_eq_false_2.
      apply (H (i, j)); [|done|right; right; split; symmetry; [exact Hi|exact Hj]].
      apply elem_of_cells; simpl. split; [by apply (box_in_grid r)|by apply (box_in_grid c)].
Qed.

(** ** Units and uniqueness *)

Lemma NoDup_filter_fmap {A} (f : A → Z) (P : Z → bool) (u : list A) :
  NoDup u →
  NoDup (List.filter P (f <$> u)) ↔
  ∀ x y, x ∈ u → y ∈ u → x ≠ y → P (f x) = true → f x ≠ f y.
Proof.
  induction 1 as [|a u Ha Hu IH]; simpl.
  { split; [intros _ x y Hx; by apply elem_of_nil in Hx|intros; constructor]. }
  assert (∀ v, v ∈ List.filter P (f <$> u) ↔ P v = true ∧ ∃ y, y ∈ u ∧ f y = v) as Hmem.
  { intros v. rewrite list_elem_of_In, filter_In, <-list_elem_of_In, list_elem_of_fmap.
    split; [intros [(y & -> & Hy) HPv]|intros [HPv (y & Hy & <-)]]; eauto. }
  destruct (P (f a)) eqn:HP.
  - rewrite NoDup_cons, IH, Hmem. split.
    + intros [Hna Hall] x y Hx Hy Hne HPx Heq.
      apply elem_of_cons in Hx as [->|Hx]; apply elem_of_cons in Hy as [->|Hy].
      * done.
      * apply Hna. eauto.
      * apply Hna. eauto.
      * by apply (Hall x y).
    + intros Hall. split.
      * intros [_ (y & Hy & Heq)]. apply (Hall a y); [left|by right| |done|done].
        intros ->. done.
      * intros x y Hx Hy. apply Hall; by right.
  - rewrite IH. split.
    + intros Hall x y Hx Hy Hne HPx Heq.
      apply elem_of_cons in Hx as [->|Hx]; [congruence|].
      apply elem_of_cons in Hy as [->|Hy]; [congruence|].
      by apply (Hall x y).
    + intros Hall x y Hx Hy. apply Hall; by right.
Qed.

Lemma units_wf :
  Forall (λ u, NoDup u ∧
               Forall (λ p, p ∈ cells ∧ Forall (λ q, p = q ∨ same_unit p q) u) u)
         units.
Proof. apply (bool_decide_unpack _). vm_compute. exact I. Qed.

Lemma units_cover :
  Forall (λ p, Forall (λ q, same_unit p q → Exists (λ u, p ∈ u ∧ q ∈ u) units) cells)
         cells.
Proof. apply (bool_decide_unpack _). vm_compute. exact I. Qed.

(** Uniqueness, cell by cell: a non-empty cell differs from every other cell
    of its row, column and box. *)
Lemma uniqueness_pointwise b :
  uniqueness b ↔
  ∀ p q, p ∈ cells → q ∈ cells → p ≠ q → same_unit p q →
         cell b p.1 p.2 ≠ 0 → cell b p.1 p.2 ≠ cell b q.1 q.2.
Proof.
  unfold uniqueness. rewrite Forall_forall. split.
  - intros Hu p q Hp Hq Hne Hsame Hnz.
    pose proof units_cover as Hc. rewrite Forall_forall in Hc.
    specialize (Hc p Hp). rewrite Forall_forall in Hc.
    specialize (Hc q Hq Hsame). apply Exists_exists in Hc as (u & Hin & Hpu & Hqu).
    pose proof units_wf as Hwf. rewrite Forall_forall in Hwf.
    destruct (Hwf u Hin) as [Hnd _].
    specialize (Hu u Hin). unfold values in Hu.
    rewrite (NoDup_filter_fmap (λ p, cell b p.1 p.2)) in Hu by done.
    apply (Hu p q); [done..|]. by apply bool_decide_eq_true.
  - intros Hpw u Hin.
    pose proof units_wf as Hwf. rewrite Forall_forall in Hwf.
    destruct (Hwf u Hin) as [Hnd Hall]. rewrite Forall_forall in Hall.
    unfold values. rewrite (NoDup_filter_fmap (λ p, cell b p.1 p.2)) by done.
    intros p q Hp Hq Hne HP%bool_decide_eq_true.
    destruct (Hall p Hp) as [Hpc Hpq]. destruct (Hall q Hq) as [Hqc _].
    rewrite Forall_forall in Hpq. apply Hpw; [done..| |done].
    destruct (Hpq q Hq); done.
Qed.

(** A legal placement on an empty cell keeps uniqueness. *)
Lemma uniqueness_set_cell b p num :
  shape9 b → uniqueness b → p ∈ cells → empty_at b p →
  is_valid b num p = true → uniqueness (set_cell b p.1 p.2 num).
Proof.
  intros Hs Hu Hp He Hv. rewrite uniqueness_pointwise in Hu |- *.
  rewrite is_valid_spec in Hv by done.
  pose proof Hp as [Hp1 Hp2]%elem_of_cells.
  intros q1 q2 Hq1 Hq2 Hne Hsame.
  destruct (decide (q1 = p)) as [->|Hn1].
  - rewrite cell_set_cell_eq by done.
    rewrite cell_set_cell_ne by (destruct p, q2; simpl; congruence).
    intros _ Heq. by apply (Hv q2).
  - rewrite (cell_set_cell_ne _ _ _ _ q1.1) by (destruct p, q1; simpl; congruence).
    destruct (decide (q2 = p)) as [->|Hn2].
    + rewrite cell_set_cell_eq by done. intros _ Heq.
      apply (Hv q1); [done|done|by apply same_unit_sym|done].
    + rewrite cell_set_cell_ne by (destruct p, q2; simpl; congruence).
      by apply Hu.
Qed.

(** ** The cell selector *)

Lemma possibilities_le_9 b p : (possibilities b p ≤ 9)%nat.
Proof. unfold possibilities. apply (filter_length_le _ digits). Qed.

(** What the scan returns: either nothing improves on the running minimum
    and the current best is returned, or the scan stops at or settles on a
    cell [p] that improved on everything before it. *)
Lemma find_empty_from_spec b todo m mp :
  (find_empty_from b todo m mp = mp ∧
     ∀ q, q ∈ todo → empty_at b q → (m ≤ possibilities b q)%nat) ∨
  (∃ l1 p l2,
     todo = l1 ++ p :: l2 ∧
     find_empty_from b todo m mp = Some p ∧
     empty_at b p ∧ (possibilities b p < m)%nat ∧
     (∀ q, q ∈ l1 → empty_at b q → (possibilities b p < possibilities b q)%nat) ∧
     (possibilities b p = 1%nat ∨
      ∀ q, q ∈ l2 → empty_at b q → (possibilities b p ≤ possibilities b q)%nat)).
Proof.
  revert m mp. induction todo as [|p todo IH]; intros m mp; simpl.
  { left. split; [done|]. intros q Hq. by apply elem_of_nil in Hq. }
  case_bool_decide as He.
  - case_bool_decide as Hlt.
    + right. case_bool_decide as H1.
      * exists [], p, todo. split_and!; [done|done|done|lia|..].
        -- intros q Hq. by apply elem_of_nil in Hq.
        -- by left.
      * destruct (IH (possibilities b p) (Some p))
          as [[Hr Hall]|(l1 & p' & l2 & -> & Hr & He' & Hlt' & Hbefore & Hafter)].
        -- exists [], p, todo. split_and!; [done|done|done|lia|..].
           ++ intros q Hq. by apply elem_of_nil in Hq.
           ++ by right.
        -- exists (p :: l1), p', l2. split_and!; [done|done|done|lia|..|done].
           intros q [->|Hq]%elem_of_cons; auto.
    + destruct (IH m mp)
        as [[Hr Hall]|(l1 & p' & l2 & -> & Hr & He' & Hlt' & Hbefore & Hafter)].
      * left. split; [done|]. intros q [->|Hq]%elem_of_cons; [lia|auto].
      * right. exists (p :: l1), p', l2. split_and!; [done..| |done].
        intros q [->|Hq]%elem_of_cons; [lia|auto].
  - destruct (IH m mp)
      as [[Hr Hall]|(l1 & p' & l2 & -> & Hr & He' & Hlt' & Hbefore & Hafter)].
    + left. split; [done|]. intros q [->|Hq]%elem_of_cons; [done|auto].
    + right. exists (p :: l1), p', l2. split_and!; [done..| |done].
      intros q [->|Hq]%elem_of_cons; [done|auto].
Qed.

(** [find_empty] returns [None] exactly on a grid without empty cell. *)
Lemma find_empty_None b :
  find_empty b = None ↔ ∀ q, q ∈ cells → ¬ empty_at b q.
Proof.
  unfold find_empty.
  destruct (find_empty_from_spec b cells 10 None)
    as [[Hr Hall]|(l1 & p & l2 & Hc & Hr & He & _)].
  - split; [|done]. intros _ q Hq Hemp.
    pose proof (Hall q Hq Hemp). pose proof (possibilities_le_9 b q). lia.
  - rewrite Hr. split; [done|]. intros Hall. exfalso. apply (Hall p); [|done].
    rewrite Hc. apply elem_of_app. right. left.
Qed.

(** The position [find_empty] returns is an empty cell of the grid. *)
Lemma find_empty_Some b p :
  find_empty b = Some p → p ∈ cells ∧ empty_at b p.
Proof.
  unfold find_empty.
  destruct (find_empty_from_spec b cells 10 None)
    as [[Hr Hall]|(l1 & p' & l2 & Hc & Hr & He & _)]; rewrite Hr; [done|].
  intros [= <-]. split; [|done].
  rewrite Hc. apply elem_of_app. right. left.
Qed.





(** ** The search engine *)

Lemma elem_of_digits num : num ∈ digits ↔ 1 ≤ num ≤ 9.
Proof. unfold digits. rewrite elem_of_seqZ. lia. Qed.

(** A failed trial loop leaves the grid as it found it, when failed
    recursive calls do. *)
Lemma try_digits_restores rec row col nums b b' :
  (∀ b1 b2, rec b1 = Some (false, b2) → b2 = b1) →
  cell b row col = 0 →
  try_digits rec row col nums b = Some (false, b') → b' = b.
Proof.
  intros Hrec Hc. induction nums as [|num nums IH]; simpl; [congruence|].
  destruct (is_valid b num (row, col)); [|exact IH].
  destruct (rec (set_cell b row col num)) as [[[] b1]|] eqn:Hr; [done| |done].
  apply Hrec in Hr. subst b1. by rewrite set_cell_undo.
Qed.

Lemma solve_S fuel b :
  solve (S fuel) b =
  match find_empty b with
  | None => Some (true, b)
  | Some (row, col) => try_digits (solve fuel) row col digits b
  end.
Proof. reflexivity. Qed.

Lemma solve_restores fuel b b' : solve fuel b = Some (false, b') → b' = b.
Proof.
  revert b b'. induction fuel as [|fuel IH]; intros b b'; [done|].
  rewrite solve_S.
  destruct (find_empty b) as [[row col]|] eqn:Hf; [|done].
  apply find_empty_Some in Hf as [_ He].
  by apply try_digits_restores.
Qed.

(** More budget does not change a result. *)
Lemma try_digits_mono rec rec' row col nums b res :
  (∀ b1 res1, rec b1 = Some res1 → rec' b1 = Some res1) →
  try_digits rec row col nums b = Some res →
  try_digits rec' row col nums b = Some res.
Proof.
  intros Hrec. revert b. induction nums as [|num nums IH]; intros b; simpl; [done|].
  destruct (is_valid b num (row, col)); [|by apply IH].
  destruct (rec (set_cell b row col num)) as [[[] b1]|] eqn:Hr; [| |done];
    rewrite (Hrec _ _ Hr); [done|by apply IH].
Qed.

Lemma solve_mono fuel fuel' b res :
  (fuel ≤ fuel')%nat → solve fuel b = Some res → solve fuel' b = Some res.
Proof.
  revert fuel' b res. induction fuel as [|fuel IH]; intros fuel' b res Hle; [done|].
  destruct fuel' as [|fuel']; [lia|]. rewrite !solve_S.
  destruct (find_empty b) as [[row col]|]; [|done].
  apply try_digits_mono. intros b1 res1. apply IH. lia.
Qed.

Section invariant.
(** A property of grids that every legal placement on the selected cell
    keeps holds of the grid a successful search leaves behind, which has no
    empty cell. *)
Variable Inv : board → Prop.
Hypothesis Inv_place : ∀ b p num,
  Inv b → find_empty b = Some p → num ∈ digits →
  is_valid b num p = true → Inv (set_cell b p.1 p.2 num).

Lemma try_digits_success rec row col nums b b' :
  (∀ b1 b2, rec b1 = Some (false, b2) → b2 = b1) →
  (∀ b1 b2, Inv b1 → rec b1 = Some (true, b2) → Inv b2 ∧ find_empty b2 = None) →
  Inv b → find_empty b = Some (row, col) → (∀ n, n ∈ nums → n ∈ digits) →
  try_digits rec row col nums b = Some (true, b') →
  Inv b' ∧ find_empty b' = None.
Proof.
  intros Hfail Hsucc Hb Hf. induction nums as [|num nums IH]; simpl; [done|].
  intros Hsub.
  assert (∀ n, n ∈ nums → n ∈ digits) as Hsub' by (intros n Hn; apply Hsub; by right).
  destruct (is_valid b num (row, col)) eqn:Hv; [|by apply IH].
  destruct (rec (set_cell b row col num)) as [[[] b1]|] eqn:Hr; [| |done].
  - intros [= <-]. apply (Hsucc _ _ (Inv_place b (row, col) num Hb Hf
      (Hsub num ltac:(left)) Hv) Hr).
  - apply Hfail in Hr. subst b1. rewrite set_cell_undo; [by apply IH|].
    by apply find_empty_Some in Hf as [_ He].
Qed.

Lemma solve_success fuel b b' :
  Inv b → solve fuel b = Some (true, b') → Inv b' ∧ find_empty b' = None.
Proof.
  revert b b'. induction fuel as [|fuel IH]; intros b b' Hb; [done|].
  rewrite solve_S.
  destruct (find_empty b) as [[row col]|] eqn:Hf; [|by intros [= <-]].
  apply try_digits_success; [apply solve_restores|apply IH|done..].
Qed.
End invariant.

(** ** Complete grids *)

Lemma occurrences_0 d l : d ∉ l → occurrences d l = 0%nat.
Proof.
  unfold occurrences. induction l as [|a l IH]; simpl; [done|].
  intros [Hne Hl]%not_elem_of_cons. rewrite bool_decide_eq_false_2 by done. auto.
Qed.

Lemma occurrences_NoDup d l : NoDup l → d ∈ l → occurrences d l = 1%nat.
Proof.
  induction 1 as [|a l Ha Hl IH]; intros Hd; [by apply elem_of_nil in Hd|].
  unfold occurrences. simpl. case_bool_decide as Heq.
  - subst a. simpl. f_equal. by apply occurrences_0.
  - apply elem_of_cons in Hd as [->|Hd]; [done|]. by apply IH.
Qed.

Lemma units_length : Forall (λ u, length u = 9%nat) units.
Proof. apply (bool_decide_unpack _). vm_compute. exact I. Qed.

(** A 9x9 grid of digits 0-9 without empty cell whose units hold no value
    twice holds each digit 1-9 exactly once in every unit. *)
Lemma complete_valid b :
  shape9 b → in_range b → uniqueness b →
  (∀ q, q ∈ cells → ¬ empty_at b q) → valid_solution b.
Proof.
  intros Hs Hr Hu Hfull. split; [done|].
  apply Forall_forall. intros u Hin.
  pose proof units_wf as Hwf. rewrite Forall_forall in Hwf.
  destruct (Hwf u Hin) as [Hnd Hall]. rewrite Forall_forall in Hall.
  pose proof units_length as Hlen. rewrite Forall_forall in Hlen.
  specialize (Hlen u Hin).
  unfold uniqueness in Hu. rewrite Forall_forall in Hu. specialize (Hu u Hin).
  assert (∀ v, v ∈ values b u → v ∈ digits) as Hdig.
  { intros v (p & -> & Hp)%list_elem_of_fmap. apply elem_of_digits.
    destruct (Hall p Hp) as [Hpc _].
    pose proof (in_range_cell b p.1 p.2 Hr). pose proof (Hfull p Hpc) as Hne.
    unfold empty_at in Hne. lia. }
  rewrite forallb_filter_id in Hu.
  2:{ apply forallb_forall. intros v Hv%list_elem_of_In%Hdig%elem_of_digits.
      apply bool_decide_eq_true. lia. }
  assert (values b u ≡ₚ digits) as Hperm.
  { apply submseteq_length_Permutation; [by apply NoDup_submseteq|].
    unfold values. rewrite length_fmap, Hlen. done. }
  apply Forall_forall. intros d Hd.
  apply occurrences_NoDup; [done|]. by rewrite Hperm.
Qed.

(** ** The entry point *)

Lemma solve_sudoku_shape b :
  shape9 b →
  solve_sudoku b =
  match solve search_budget b with
  | Some (true, b') => Some b'
  | _ => None
  end.
Proof.
  intros Hs%bad_shape_false. unfold solve_sudoku. rewrite Hs.
  by rewrite list_fmap_id.
Qed.

Lemma solve_sudoku_Some b g :
  solve_sudoku b = Some g → shape9 b ∧ solve search_budget b = Some (true, g).
Proof.
  unfold solve_sudoku. destruct (bad_shape b) eqn:Hs; [done|].
  apply bad_shape_false in Hs. rewrite list_fmap_id.
  destruct (solve search_budget b) as [[[] b']|]; [|done..].
  by intros [= ->].
Qed.

(** Well-formed consistent grids are closed under the placements the search
    makes. *)
Lemma consistent_place b p num :
  shape9 b ∧ in_range b ∧ uniqueness b →
  find_empty b = Some p → num ∈ digits → is_valid b num p = true →
  shape9 (set_cell b p.1 p.2 num) ∧ in_range (set_cell b p.1 p.2 num)
  ∧ uniqueness (set_cell b p.1 p.2 num).
Proof.
  intros (Hs & Hr & Hu) [Hp He]%find_empty_Some Hd%elem_of_digits Hv.
  split_and!.
  - by apply shape9_set_cell.
  - apply in_range_set_cell; [lia|done].
  - by apply uniqueness_set_cell.
Qed.

Lemma keeps_place b0 b p num :
  keeps b0 b → find_empty b = Some p → num ∈ digits →
  is_valid b num p = true → keeps b0 (set_cell b p.1 p.2 num).
Proof.
  intros Hk [Hp He]%find_empty_Some _ _ i j Hnz.
  rewrite cell_set_cell_ne; [by apply Hk|].
  intros Heq. destruct p as [r c]. simpl in Heq. injection Heq as -> ->.
  unfold empty_at in He. simpl in He. rewrite Hk in He; done.
Qed.

Lemma solve_keeps fuel b r b' :
  solve fuel b = Some (r, b') → keeps b b'.
Proof.
  destruct r.
  - intros Hsol. by apply (solve_success (keeps b) (keeps_place b) fuel b b').
  - intros ->%solve_restores. by intros i j.
Qed.

(** ** Termination *)

Lemma count_zero_le row : (count_zero row ≤ length row)%nat.
Proof. unfold count_zero. apply filter_length_le. Qed.

Lemma count_zero_insert row j v :
  row !! j = Some 0 → v ≠ 0 →
  (count_zero (<[j := v]> row) + 1)%nat = count_zero row.
Proof.
  unfold count_zero. revert j. induction row as [|x row IH]; intros j Hj Hv; [done|].
  destruct j as [|j]; simpl in *.
  - injection Hj as ->. rewrite bool_decide_eq_false_2 by done.
    rewrite bool_decide_eq_true_2 by done. simpl. by rewrite Nat.add_1_r.
  - specialize (IH j Hj Hv). destruct (bool_decide (x = 0)); simpl; [f_equal|]; exact IH.
Qed.

Lemma sum_list_alter {A} (f : A → nat) (g : A → A) (l : list A) i x :
  l !! i = Some x →
  (sum_list (f <$> alter g i l) + f x)%nat = (sum_list (f <$> l) + f (g x))%nat.
Proof.
  revert i. induction l as [|y l IH]; intros i Hi; [done|].
  destruct i as [|i]; simpl in *.
  - injection Hi as ->. lia.
  - specialize (IH i Hi). unfold fmap, alter in IH. lia.
Qed.

Lemma sum_list_bound {A} (f : A → nat) (l : list A) n :
  Forall (λ x, (f x ≤ n)%nat) l → (sum_list (f <$> l) ≤ length l * n)%nat.
Proof.
  induction 1 as [|x l Hx Hl IH]; simpl; [lia|]. unfold fmap in IH. lia.
Qed.

(** A 9x9 grid has at most 81 empty cells. *)
Lemma empty_count_le_81 b : shape9 b → (empty_count b ≤ 81)%nat.
Proof.
  intros [Hl Hr]. unfold empty_count.
  transitivity (length b * 9)%nat; [|lia]. apply sum_list_bound.
  eapply Forall_impl; [exact Hr|]. intros row Hrow. simpl in Hrow.
  pose proof (count_zero_le row). lia.
Qed.

(** Filling an empty cell of the grid lowers the empty-cell count by one. *)
Lemma empty_count_set_cell b p num :
  shape9 b → p ∈ cells → empty_at b p → num ≠ 0 →
  (empty_count (set_cell b p.1 p.2 num) + 1)%nat = empty_count b.
Proof.
  intros Hs [Hi Hj]%elem_of_cells He Hn.
  destruct (shape9_rows b p.1 Hs Hi) as (row & Hrow & Hlen).
  unfold empty_at in He. rewrite (cell_lookup _ _ _ _ Hrow) in He.
  destruct (lookup_lt_is_Some_2 row p.2) as [x Hx]; [lia|].
  rewrite Hx in He. simpl in He. subst x.
  pose proof (sum_list_alter count_zero (<[p.2 := num]>) b p.1 row Hrow) as Hsum.
  pose proof (count_zero_insert row p.2 num Hx Hn).
  unfold empty_count, set_cell. lia.
Qed.

(** The trial loop returns when every recursive call it makes does. *)
Lemma try_digits_total rec row col nums b :
  (∀ b1 b2, rec b1 = Some (false, b2) → b2 = b1) →
  (∀ num, num ∈ nums → is_Some (rec (set_cell b row col num))) →
  cell b row col = 0 →
  is_Some (try_digits rec row col nums b).
Proof.
  intros Hfail Hrec Hc. induction nums as [|num nums IH]; simpl; [eauto|].
  assert (is_Some (try_digits rec row col nums b)) as Hrest.
  { apply IH. intros n Hn. apply Hrec. by right. }
  destruct (is_valid b num (row, col)); [|done].
  destruct (Hrec num ltac:(left)) as [[[] b1] Hr]; rewrite Hr; [eauto|].
  apply Hfail in Hr. subst b1. by rewrite set_cell_undo.
Qed.

(** With a budget above the number of empty cells, [solve] returns. *)
Lemma solve_total fuel b :
  shape9 b → (empty_count b < fuel)%nat → is_Some (solve fuel b).
Proof.
  revert b. induction fuel as [|fuel IH]; intros b Hs Hlt; [lia|].
  rewrite solve_S. destruct (find_empty b) as [[row col]|] eqn:Hf; [|eauto].
  apply find_empty_Some in Hf as [Hp He].
  apply try_digits_total; [apply solve_restores| |done].
  intros num Hnum%elem_of_digits. apply IH; [by apply shape9_set_cell|].
  pose proof (empty_count_set_cell b (row, col) num Hs Hp He ltac:(lia)).
  simpl in *. lia.
Qed.

(** The budget [solve_sudoku] passes is enough for every 9x9 grid. *)
Lemma solve_sudoku_budget b : shape9 b → is_Some (solve search_budget b).
Proof.
  intros Hs. apply solve_total; [done|].
  pose proof (empty_count_le_81 b Hs). unfold search_budget. lia.
Qed.

(** ** The history of the search *)

Lemma trace_solve_S fuel b :
  Trace.solve (S fuel) b =
  match find_empty b with
  | None => Some (true, b, [b; b])
  | Some (row, col) =>
      match Trace.try_digits (Trace.solve fuel) row col digits b with
      | None => None
      | Some (r, b', t) => Some (r, b', b :: t ++ [b'])
      end
  end.
Proof. reflexivity. Qed.

(** Recording the history does not change what the search does. *)
Lemma trace_try_digits_outcome rec_t rec row col nums b :
  (∀ b1, Trace.outcome <$> rec_t b1 = rec b1) →
  Trace.outcome <$> Trace.try_digits rec_t row col nums b
  = try_digits rec row col nums b.
Proof.
  intros Hrec. revert b. induction nums as [|num nums IH]; intros b; simpl; [done|].
  destruct (is_valid b num (row, col)); [|by apply IH].
  rewrite <-Hrec.
  destruct (rec_t (set_cell b row col num)) as [[[[] b1] t]|]; simpl; [done| |done].
  rewrite <-IH.
  by destruct (Trace.try_digits rec_t row col nums (set_cell b1 row col 0))
    as [[[r b2] t']|].
Qed.

Lemma trace_solve_outcome fuel b :
  Trace.outcome <$> Trace.solve fuel b = solve fuel b.
Proof.
  revert b. induction fuel as [|fuel IH]; intros b; [done|].
  rewrite trace_solve_S, solve_S.
  destruct (find_empty b) as [[row col]|]; [|done].
  rewrite <-(trace_try_digits_outcome (Trace.solve fuel) (solve fuel)) by done.
  by destruct (Trace.try_digits (Trace.solve fuel) row col digits b)
    as [[[r b2] t']|].
Qed.

Lemma trace_solve_ends fuel b r b' t :
  Trace.solve fuel b = Some (r, b', t) → head t = Some b ∧ last t = Some b'.
Proof.
  destruct fuel as [|fuel]; [done|]. rewrite trace_solve_S.
  destruct (find_empty b) as [[row col]|].
  - destruct (Trace.try_digits (Trace.solve fuel) row col digits b)
      as [[[r1 b1] t1]|]; [|done].
    intros [= <- <- <-]. split; [done|].
    change (b :: t1 ++ [b1]) with ((b :: t1) ++ [b1]). by rewrite last_snoc.
  - by intros [= <- <- <-].
Qed.

Section trace_invariant.
(** A property that holds on entry and that every legal placement on the
    selected cell keeps holds of every grid of the history. *)
Variable Inv : board → Prop.
Hypothesis Inv_place : ∀ b p num,
  Inv b → find_empty b = Some p → num ∈ digits →
  is_valid b num p = true → Inv (set_cell b p.1 p.2 num).

Lemma trace_try_digits_inv rec row col nums b r b' t :
  (∀ b1 r1 b2 t1, Inv b1 → rec b1 = Some (r1, b2, t1) →
     Forall Inv t1 ∧ Inv b2 ∧ (r1 = false → b2 = b1)) →
  Inv b → find_empty b = Some (row, col) → (∀ n, n ∈ nums → n ∈ digits) →
  Trace.try_digits rec row col nums b = Some (r, b', t) →
  Forall Inv t ∧ Inv b' ∧ (r = false → b' = b).
Proof.
  intros Hrec Hb Hf. revert r b' t.
  induction nums as [|num nums IH]; intros r b' t Hsub; simpl.
  { intros [= <- <- <-]. done. }
  assert (∀ n, n ∈ nums → n ∈ digits) as Hsub' by (intros n Hn; apply Hsub; by right).
  destruct (is_valid b num (row, col)) eqn:Hv; [|by apply IH].
  pose proof (Inv_place b (row, col) num Hb Hf (Hsub num ltac:(left)) Hv) as Hplace.
  simpl in Hplace.
  destruct (rec (set_cell b row col num)) as [[[[] b1] t1]|] eqn:Hr; [| |done].
  - intros [= <- <- <-]. destruct (Hrec _ _ _ _ Hplace Hr) as (Ht & Hb1 & _). done.
  - destruct (Hrec _ _ _ _ Hplace Hr) as (Ht & Hb1 & Heq).
    rewrite (Heq eq_refl), set_cell_undo
      by (by apply find_empty_Some in Hf as [_ He]).
    destruct (Trace.try_digits rec row col nums b) as [[[r2 b2] t2]|] eqn:Hrest;
      [|done].
    intros [= <- <- <-]. destruct (IH _ _ _ Hsub' eq_refl) as (Ht2 & Hb2 & Heq2).
    split_and!; [|done..]. apply Forall_app. split; [done|]. by constructor.
Qed.

Lemma trace_solve_inv fuel b r b' t :
  Inv b → Trace.solve fuel b = Some (r, b', t) →
  Forall Inv t ∧ Inv b' ∧ (r = false → b' = b).
Proof.
  revert b r b' t. induction fuel as [|fuel IH]; intros b r b' t Hb; [done|].
  rewrite trace_solve_S. destruct (find_empty b) as [[row col]|] eqn:Hf.
  - destruct (Trace.try_digits (Trace.solve fuel) row col digits b)
      as [[[r1 b1] t1]|] eqn:Htry; [|done].
    intros [= <- <- <-].
    destruct (trace_try_digits_inv (Trace.solve fuel) row col digits b r1 b1 t1)
      as (Ht & Hb1 & Heq); [exact IH|done..|].
    split_and!; [|done..]. constructor; [done|].
    apply Forall_app. split; [done|]. by constructor.
  - intros [= <- <- <-]. split_and!; [|done..]. by repeat constructor.
Qed.
End trace_invariant.

(** ** The solver over the store *)

Lemma length_set_cell b i j v : length (set_cell b i j v) = length b.
Proof. apply length_alter. Qed.

Lemma solve_length fuel b r b' :
  solve fuel b = Some (r, b') → length b' = length b.
Proof.
  destruct r.
  - intros Hsol.
    apply (solve_success (λ b1, length b1 = length b)) in Hsol as [Hl _]; [done| |done].
    intros b1 p num Hl _ _ _. by rewrite length_set_cell.
  - by intros ->%solve_restores.
Qed.

(** Allocation leaves the contents of an allocated grid alone. *)
Lemma deref_app σ new g :
  Heap.allocated σ g → Heap.deref (σ ++ new) g = Heap.deref σ g.
Proof.
  unfold Heap.allocated, Heap.deref. intros Ha. apply Forall_fmap_ext.
  eapply Forall_impl; [exact Ha|]. intros l Hl. simpl in *.
  by rewrite lookup_app_l.
Qed.

(** Rows allocated one after the other at the end of the store. *)
Lemma deref_fresh σ rows :
  Heap.deref (σ ++ rows) (seq (length σ) (length rows)) = rows.
Proof.
  unfold Heap.deref. apply list_eq. intros i. rewrite list_lookup_fmap.
  destruct (rows !! i) as [row|] eqn:Hi.
  - rewrite (lookup_seq_lt _ _ _ (lookup_lt_Some _ _ _ Hi)). simpl.
    by rewrite lookup_app_r, Nat.add_comm, Nat.add_sub, Hi by lia.
  - rewrite lookup_seq_ge; [done|]. by apply lookup_ge_None.
Qed.

Lemma copy_rows_spec σ g :
  Heap.allocated σ g →
  Heap.copy_rows σ g = (σ ++ Heap.deref σ g, seq (length σ) (length g)).
Proof.
  revert σ. induction g as [|l g IH]; intros σ Ha; simpl.
  { by rewrite app_nil_r. }
  apply Forall_cons in Ha as [Hl Ha].
  rewrite IH.
  2:{ eapply Forall_impl; [exact Ha|]. intros l' Hl'. simpl in *.
      rewrite length_app. simpl. lia. }
  rewrite deref_app by done. rewrite length_app, <-app_assoc. simpl.
  by rewrite Nat.add_1_r.
Qed.

(** A write through a grid of fresh rows is the update of those rows. *)
Lemma write_fresh σ rows row col v :
  Heap.write (σ ++ rows) (seq (length σ) (length rows)) row col v
  = σ ++ set_cell rows row col v.
Proof.
  unfold Heap.write, set_cell.
  destruct (decide (row < length rows)%nat) as [Hlt|Hge].
  - rewrite lookup_seq_lt by done. by rewrite alter_app_r.
  - rewrite lookup_seq_ge by lia. f_equal. symmetry.
    apply list_eq. intros k. rewrite list_lookup_alter.
    case_decide; [subst k|done]. by rewrite (lookup_ge_None_2 rows row) by lia.
Qed.

Lemma heap_try_digits_sim rec_h rec (σ : Heap.store) k row col nums rows :
  (∀ rows1, length rows1 = k →
     rec_h (σ ++ rows1) = (λ x, (x.1, σ ++ x.2)) <$> rec rows1) →
  (∀ rows1 r rows2, rec rows1 = Some (r, rows2) → length rows2 = length rows1) →
  length rows = k →
  Heap.try_digits rec_h (seq (length σ) k) row col nums (σ ++ rows)
  = (λ x, (x.1, σ ++ x.2)) <$> try_digits rec row col nums rows.
Proof.
  intros Hrec Hlen. revert rows.
  induction nums as [|num nums IH]; intros rows Hk; simpl; [done|].
  assert (∀ rows1 v, length rows1 = k →
    Heap.write (σ ++ rows1) (seq (length σ) k) row col v
    = σ ++ set_cell rows1 row col v) as Hwrite.
  { intros rows1 v <-. apply write_fresh. }
  replace (Heap.deref (σ ++ rows) (seq (length σ) k)) with rows
    by (subst k; by rewrite deref_fresh).
  destruct (is_valid rows num (row, col)); [|by apply IH].
  rewrite Hwrite, Hrec by (by rewrite ?length_set_cell).
  destruct (rec (set_cell rows row col num)) as [[[] rows1]|] eqn:Hr; simpl;
    [done| |done].
  apply Hlen in Hr. rewrite length_set_cell, Hk in Hr.
  rewrite Hwrite by done. apply IH. by rewrite length_set_cell.
Qed.

Lemma heap_solve_sim fuel (σ : Heap.store) rows :
  Heap.solve fuel (seq (length σ) (length rows)) (σ ++ rows)
  = (λ x, (x.1, σ ++ x.2)) <$> solve fuel rows.
Proof.
  revert rows. induction fuel as [|fuel IH]; intros rows; [done|].
  rewrite solve_S. change (Heap.solve (S fuel) ?g ?s) with
    (match find_empty (Heap.deref s g) with
     | None => Some (true, s)
     | Some (row, col) => Heap.try_digits (Heap.solve fuel g) g row col digits s
     end).
  rewrite deref_fresh. destruct (find_empty rows) as [[row col]|]; [|done].
  apply heap_try_digits_sim; [|apply solve_length|done].
  intros rows1 <-. apply IH.
Qed.

(** * The solver's properties *)

(** ** Returned grids *)




(** ** Unsolvable input *)

(** C2: [conflict_puzzle] holds 3 in two filled cells of its first row, and
    [solve_sudoku] returns a grid for it, not [None]. *)
Lemma solve_sudoku_row_conflict :
  shape9 conflict_puzzle
  ∧ cell conflict_puzzle 0 0 = 3 ∧ cell conflict_puzzle 0 1 = 3
  ∧ solve_sudoku conflict_puzzle = Some conflict_grid
  ∧ solve_sudoku conflict_grid = Some conflict_grid.
Proof.
  split_and!; [apply (bool_decide_unpack _)|..]; vm_compute; done.
Qed.

(** ** Cell selection *)




(** ** The search invariant *)

(** C4, as stated, fails: the search accepts [conflict_puzzle], whose first
    row holds 3 twice, and no grid of its history satisfies uniqueness. *)
Lemma search_without_uniqueness :
  ∃ r b' t, Trace.solve search_budget conflict_puzzle = Some (r, b', t)
            ∧ head t = Some conflict_puzzle
            ∧ Forall (λ b, ¬ uniqueness b) t.
Proof.
  destruct (Trace.solve search_budget conflict_puzzle) as [[[r b'] t]|] eqn:H;
    vm_compute in H; [|discriminate].
  injection H as <- <- <-. do 3 eexists. split_and!; [done..|].
  repeat constructor; apply (bool_decide_eq_false_1 _); vm_compute; reflexivity.
Qed.

(** C4, amended: when the grid passed to the outermost call of [solve]
    satisfies uniqueness, so does the grid at entry and at exit of every
    recursive call, and after every undo. *)
Theorem solve_keeps_uniqueness fuel b r b' t :
  shape9 b → uniqueness b →
  Trace.solve fuel b = Some (r, b', t) →
  solve fuel b = Some (r, b')
  ∧ head t = Some b ∧ last t = Some b'
  ∧ Forall uniqueness t.
Proof.
  intros Hs Hu Ht. split_and!.
  - by rewrite <-trace_solve_outcome, Ht.
  - by apply trace_solve_ends in Ht as [? ?].
  - by apply trace_solve_ends in Ht as [? ?].
  - apply (trace_solve_inv (λ b, shape9 b ∧ uniqueness b)) in Ht as (Ht & _).
    + eapply Forall_impl; [exact Ht|]. by intros b1 [_ ?].
    + intros b1 p num [Hs1 Hu1] [Hp He]%find_empty_Some _ Hv.
      split; [by apply shape9_set_cell|by apply uniqueness_set_cell].
    + done.
Qed.

Lemma solve_keeps_uniqueness_witness :
  Forall uniqueness (from_option (λ x, x.2) [] (Trace.solve 3 forced_first)).
Proof.
  refine (proj2 (proj2 (proj2
    (solve_keeps_uniqueness 3 forced_first false forced_first
       (from_option (λ x, x.2) [] (Trace.solve 3 forced_first)) _ _ _)))).
  - apply (bool_decide_unpack _). vm_compute. exact I.
  - apply (bool_decide_unpack _). vm_compute. exact I.
  - vm_compute. reflexivity.
Defined.

(** ** Backtracking *)

(** C5: when [solve] returns false on a grid, the grid it leaves behind is
    the grid it was called on. *)
Theorem solve_false_restores fuel b b' :
  shape9 b → solve fuel b = Some (false, b') → b' = b.
Proof. intros _. apply solve_restores. Qed.

Lemma solve_false_restores_witness :
  solve search_budget forced_first = Some (false, forced_first).
Proof.
  assert (shape9 forced_first) as Hs
    by (apply (bool_decide_unpack _); vm_compute; exact I).
  destruct (solve search_budget forced_first) as [[[] b']|] eqn:H;
    [vm_compute in H; discriminate| |vm_compute in H; discriminate].
  by rewrite (solve_false_restores search_budget forced_first b' Hs H).
Defined.

(** ** Shape validation *)

(** C6: on an input that is not 9 rows of 9 entries, [solve_sudoku] returns
    [None]; no search is started (the history is empty) and no copy is made
    (the store is left as it is). *)
Theorem solve_sudoku_rejects_shape b :
  ¬ shape9 b →
  solve_sudoku b = None
  ∧ Trace.solve_sudoku b = (None, [])
  ∧ ∀ σ g, Heap.deref σ g = b → Heap.solve_sudoku σ g = (None, σ).
Proof.
  intros Hs. assert (bad_shape b = true) as Hbad.
  { destruct (bad_shape b) eqn:Hb; [done|]. by apply bad_shape_false in Hb. }
  unfold solve_sudoku, Trace.solve_sudoku, Heap.solve_sudoku. rewrite Hbad.
  split_and!; [done..|]. intros σ g ->. by rewrite Hbad.
Qed.

Lemma solve_sudoku_rejects_shape_witness :
  solve_sudoku short_board = None
  ∧ solve_sudoku long_row_board = None
  ∧ solve_sudoku [] = None
  ∧ Trace.solve_sudoku short_board = (None, []).
Proof.
  assert (¬ shape9 short_board) as H8
    by (apply (bool_decide_eq_false_1 _); vm_compute; reflexivity).
  assert (¬ shape9 long_row_board) as H10
    by (apply (bool_decide_eq_false_1 _); vm_compute; reflexivity).
  assert (¬ shape9 []) as H0
    by (apply (bool_decide_eq_false_1 _); vm_compute; reflexivity).
  split_and!.
  - exact (proj1 (solve_sudoku_rejects_shape short_board H8)).
  - exact (proj1 (solve_sudoku_rejects_shape long_row_board H10)).
  - exact (proj1 (solve_sudoku_rejects_shape [] H0)).
  - exact (proj1 (proj2 (solve_sudoku_rejects_shape short_board H8))).
Defined.

(** ** The caller's grid *)

Lemma heap_solve_sudoku_spec σ g :
  Heap.allocated σ g →
  ∃ res new,
    Heap.solve_sudoku σ g = (res, σ ++ new)
    ∧ Heap.deref (σ ++ new) <$> res = solve_sudoku (Heap.deref σ g)
    ∧ from_option (Heap.allocated (σ ++ new)) True res.
Proof.
  intros Ha. unfold Heap.solve_sudoku, solve_sudoku.
  destruct (bad_shape (Heap.deref σ g)) eqn:Hbad.
  { exists None, []. by rewrite app_nil_r. }
  rewrite copy_rows_spec, list_fmap_id by done.
  set (rows := Heap.deref σ g).
  assert (length g = length rows) as -> by (unfold rows, Heap.deref; by rewrite length_fmap).
  rewrite heap_solve_sim.
  destruct (solve search_budget rows) as [[[] rows']|] eqn:Hsol; simpl.
  - exists (Some (seq (length σ) (length rows))), rows'.
    apply solve_length in Hsol. rewrite <-Hsol. split_and!; [done| |].
    + simpl. by rewrite deref_fresh.
    + simpl. apply Forall_forall. intros l [_ Hl]%elem_of_seq.
      rewrite length_app. lia.
  - by exists None, rows'.
  - by exists None, rows.
Qed.

(** C7: [solve_sudoku] writes to no row object that existed when it was
    called, so the caller's grid holds what it held; the grid it returns
    holds what the value-level solver computes from the input; and a second
    call on the same input returns a grid with the same contents, without
    disturbing the first result. *)
Theorem solve_sudoku_leaves_input σ g res σ' :
  Heap.allocated σ g →
  Heap.solve_sudoku σ g = (res, σ') →
  (∃ new, σ' = σ ++ new)
  ∧ Heap.deref σ' g = Heap.deref σ g
  ∧ Heap.deref σ' <$> res = solve_sudoku (Heap.deref σ g)
  ∧ ∀ res2 σ2, Heap.solve_sudoku σ' g = (res2, σ2) →
      Heap.deref σ2 <$> res2 = Heap.deref σ' <$> res
      ∧ Heap.deref σ2 <$> res = Heap.deref σ' <$> res
      ∧ Heap.deref σ2 g = Heap.deref σ g.
Proof.
  intros Ha Hcall.
  destruct (heap_solve_sudoku_spec σ g Ha) as (res1 & new & Hcall1 & Hres & Hres_a).
  rewrite Hcall in Hcall1. injection Hcall1 as -> ->.
  assert (Heap.allocated (σ ++ new) g) as Ha'.
  { eapply Forall_impl; [exact Ha|]. intros l Hl. simpl in *.
    rewrite length_app. lia. }
  split_and!; [by exists new|by apply deref_app|done|].
  intros res2 σ2 Hcall2.
  destruct (heap_solve_sudoku_spec (σ ++ new) g Ha')
    as (res2' & new2 & Hcall2' & Hres2 & _).
  rewrite Hcall2 in Hcall2'. injection Hcall2' as -> ->.
  rewrite (deref_app σ new g Ha) in Hres2. split_and!.
  - by rewrite Hres2, Hres.
  - destruct res1 as [g1|]; [simpl in *|done]. f_equal. by apply deref_app.
  - rewrite <-(deref_app σ new g Ha). by apply deref_app.
Qed.

Lemma solve_sudoku_leaves_input_witness :
  Heap.deref (Heap.solve_sudoku Heap.shared_row_store Heap.shared_row_grid).2
             Heap.shared_row_grid
  = Heap.deref Heap.shared_row_store Heap.shared_row_grid.
Proof.
  refine (proj1 (proj2
    (solve_sudoku_leaves_input Heap.shared_row_store Heap.shared_row_grid
       (Heap.solve_sudoku Heap.shared_row_store Heap.shared_row_grid).1
       (Heap.solve_sudoku Heap.shared_row_store Heap.shared_row_grid).2 _ _))).
  - apply (bool_decide_unpack _). vm_compute. exact I.
  - by destruct (Heap.solve_sudoku Heap.shared_row_store Heap.shared_row_grid).
Defined.

(** The grid [[[0] * 9] * 9]: the nine rows of the copy are distinct objects,
    the search fills them, the shared row of the input stays empty. *)
Example solve_sudoku_shared_rows :
  ∃ g σ',
    Heap.solve_sudoku Heap.shared_row_store Heap.shared_row_grid = (Some g, σ')
    ∧ Heap.deref σ' Heap.shared_row_grid = replicate 9 (replicate 9 0)
    ∧ valid_solution (Heap.deref σ' g).
Proof.
  destruct (Heap.solve_sudoku Heap.shared_row_store Heap.shared_row_grid)
    as [[g|] σ'] eqn:H; vm_compute in H; [|discriminate].
  injection H as <- <-. do 2 eexists. split_and!; [reflexivity..|].
  apply (bool_decide_unpack _). vm_compute. exact I.
Qed.

(** ** Termination *)

(** C8: on a 9x9 grid [solve] returns, and returns the same result, for
    every recursion budget above the number of empty cells, which is at most
    81; each placement the search tries lowers the number of empty cells by
    one, and each level tries the 9 digits of [digits]. *)
Theorem solve_terminates b :
  shape9 b →
  (∃ res, ∀ fuel, (empty_count b < fuel)%nat → solve fuel b = Some res)
  ∧ (∀ p num, find_empty b = Some p → num ∈ digits →
       shape9 (set_cell b p.1 p.2 num)
       ∧ (empty_count (set_cell b p.1 p.2 num) + 1)%nat = empty_count b)
  ∧ length digits = 9%nat
  ∧ (empty_count b < search_budget)%nat.
Proof.
  intros Hs. split_and!.
  - destruct (solve_total (S (empty_count b)) b Hs ltac:(lia)) as [res Hres].
    exists res. intros fuel Hlt. apply (solve_mono (S (empty_count b))); [lia|done].
  - intros p num [Hp He]%find_empty_Some Hn%elem_of_digits.
    split; [by apply shape9_set_cell|]. apply empty_count_set_cell; [done..|lia].
  - done.
  - pose proof (empty_count_le_81 b Hs). unfold search_budget. lia.
Qed.

Lemma solve_terminates_witness :
  ∃ res, ∀ fuel, (empty_count easy_board < fuel)%nat → solve fuel easy_board = Some res.
Proof.
  refine (proj1 (solve_terminates easy_board _)).
  apply (bool_decide_unpack _). vm_compute. exact I.
Defined.

(** ** Complexity summary *)

Lemma empty_count_flat b : empty_count b = occurrences 0 (mjoin b).
Proof.
  unfold empty_count, occurrences. induction b as [|row b IH]; simpl; [done|].
  rewrite List.filter_app, length_app. unfold fmap in IH. by rewrite IH.
Qed.

(** C9: the summary holds the number of zero entries of the grid, that number
    times 9, and the label the thresholds 40, 50 and 55 select. *)
Theorem analyze_board_complexity_spec b :
  empty_cells (analyze_board_complexity b) = occurrences 0 (mjoin b)
  ∧ branching_factor (analyze_board_complexity b) = (occurrences 0 (mjoin b) * 9)%nat
  ∧ (complexity_estimate (analyze_board_complexity b) = "Easy"
     ↔ (occurrences 0 (mjoin b) < 40)%nat)
  ∧ (complexity_estimate (analyze_board_complexity b) = "Medium"
     ↔ (40 ≤ occurrences 0 (mjoin b) < 50)%nat)
  ∧ (complexity_estimate (analyze_board_complexity b) = "Hard"
     ↔ (50 ≤ occurrences 0 (mjoin b) < 55)%nat)
  ∧ (complexity_estimate (analyze_board_complexity b) = "Expert"
     ↔ (55 ≤ occurrences 0 (mjoin b))%nat)
  ∧ (occurrences 0 (mjoin b) = 41%nat
     → complexity_estimate (analyze_board_complexity b) = "Medium")
  ∧ (occurrences 0 (mjoin b) = 39%nat
     → complexity_estimate (analyze_board_complexity b) = "Easy")
  ∧ (occurrences 0 (mjoin b) = 56%nat
     → complexity_estimate (analyze_board_complexity b) = "Expert").
Proof.
  rewrite <-empty_count_flat. unfold analyze_board_complexity. simpl.
  generalize (empty_count b). intros n.
  split_and!; [done..| | | | | | |]; repeat case_bool_decide;
    first [split; (done || lia) | intros; (done || lia)].
Qed.

Example complexity_labels :
  occurrences 0 (mjoin (blanked 41)) = 41%nat
  ∧ complexity_estimate (analyze_board_complexity (blanked 41)) = "Medium"
  ∧ occurrences 0 (mjoin (blanked 39)) = 39%nat
  ∧ complexity_estimate (analyze_board_complexity (blanked 39)) = "Easy"
  ∧ occurrences 0 (mjoin (blanked 56)) = 56%nat
  ∧ complexity_estimate (analyze_board_complexity (blanked 56)) = "Expert"
  ∧ analyze_board_complexity easy_board
    = {| empty_cells := 51; complexity_estimate := "Hard"; branching_factor := 459 |}.
Proof. split_and!; vm_compute; reflexivity. Qed.

(** ** Entry values *)

(** C10: the validation of [solve_sudoku] looks at the shape only.  Every
    grid of 9 rows of 9 entries passes it and is searched, whatever its
    entries; a non-zero entry, in 1-9 or not, is never selected as an empty
    cell and keeps its value in every grid the search or the entry point
    returns; and [wide_puzzle], which holds 10, is completed to a grid that
    still holds 10. *)
Theorem solve_sudoku_values_unchecked :
  (∀ b, shape9 b →
     bad_shape b = false
     ∧ ∃ r g, solve search_budget b = Some (r, g)
              ∧ solve_sudoku b = if r then Some g else None)
  ∧ (∀ b p, find_empty b = Some p → cell b p.1 p.2 = 0)
  ∧ (∀ b g i j, solve_sudoku b = Some g → cell b i j ≠ 0 → cell g i j = cell b i j)
  ∧ (shape9 wide_puzzle ∧ cell wide_puzzle 0 0 = 10
     ∧ solve_sudoku wide_puzzle = Some wide_solution
     ∧ cell wide_solution 0 0 = 10).
Proof.
  split_and!.
  - intros b Hs. split; [by apply bad_shape_false|].
    destruct (solve_sudoku_budget b Hs) as [[r g] Hres].
    exists r, g. split; [done|].
    rewrite solve_sudoku_shape, Hres by done. by destruct r.
  - intros b p [_ He]%find_empty_Some. exact He.
  - intros b g i j [_ Hsol]%solve_sudoku_Some Hnz.
    by apply (solve_keeps _ _ _ _ Hsol).
  - apply (bool_decide_unpack _). vm_compute. exact I.
  - vm_compute. reflexivity.
  - vm_compute. reflexivity.
  - vm_compute. reflexivity.
Qed.

(** * Further properties of the Sudoku solver *)

Lemma occurrences_pos d l : occurrences d l ≠ 0%nat → d ∈ l.
Proof.
  intros Hn. destruct (decide (d ∈ l)) as [|Hnot]; [done|].
  by apply occurrences_0 in Hnot.
Qed.

Lemma NoDup_digits : NoDup digits.
Proof. apply (bool_decide_unpack _). vm_compute. exact I. Qed.

Lemma cells_in_units : Forall (λ q, Exists (λ u, q ∈ u) units) cells.
Proof. apply (bool_decide_unpack _). vm_compute. exact I. Qed.

(** In a valid solution every unit is a rearrangement of the digits 1-9. *)
Lemma valid_solution_units g u :
  valid_solution g → u ∈ units → values g u ≡ₚ digits.
Proof.
  intros [_ Hv] Hu. rewrite Forall_forall in Hv. specialize (Hv u Hu).
  rewrite Forall_forall in Hv.
  pose proof units_length as Hlen. rewrite Forall_forall in Hlen.
  specialize (Hlen u Hu). symmetry.
  apply submseteq_length_Permutation.
  - apply NoDup_submseteq; [apply NoDup_digits|].
    intros d Hd. apply occurrences_pos. by rewrite (Hv d Hd).
  - unfold values. by rewrite length_fmap, Hlen.
Qed.

Lemma valid_solution_digits g q :
  valid_solution g → q ∈ cells → cell g q.1 q.2 ∈ digits.
Proof.
  intros Hv Hq. pose proof cells_in_units as Hc. rewrite Forall_forall in Hc.
  apply Hc, Exists_exists in Hq as (u & Hu & Hqu).
  rewrite <-(valid_solution_units g u Hv Hu).
  unfold values. apply list_elem_of_fmap. by exists q.
Qed.

Lemma valid_solution_uniqueness g : valid_solution g → uniqueness g.
Proof.
  intros Hv. unfold uniqueness. apply Forall_forall. intros u Hu.
  pose proof (valid_solution_units g u Hv Hu) as Hperm.
  rewrite forallb_filter_id.
  - rewrite Hperm. apply NoDup_digits.
  - apply forallb_forall. intros v Hin%list_elem_of_In.
    rewrite Hperm in Hin. apply elem_of_digits in Hin.
    apply bool_decide_eq_true. lia.
Qed.

(** The digit a solution holds at an empty cell of a grid it extends is
    accepted by the validator. *)
Lemma completion_is_valid b g p :
  keeps b g → valid_solution g → p ∈ cells →
  is_valid b (cell g p.1 p.2) p = true.
Proof.
  intros Hk Hv Hp. apply is_valid_spec; [done|]. intros q Hq Hne Hsame Heq.
  pose proof (valid_solution_digits g p Hv Hp) as Hd%elem_of_digits.
  assert (cell b q.1 q.2 ≠ 0) as Hnz by lia.
  rewrite <-(Hk _ _ Hnz) in Heq.
  pose proof (valid_solution_uniqueness g Hv) as Hu.
  rewrite uniqueness_pointwise in Hu.
  apply (Hu q p); [done..|by apply same_unit_sym|lia|done].
Qed.

Lemma keeps_set_cell b g p :
  keeps b g → keeps (set_cell b p.1 p.2 (cell g p.1 p.2)) g.
Proof.
  intros Hk i j. destruct (decide ((p.1, p.2) = (i, j))) as [[= <- <-]|Hne].
  - intros Hnz. destruct (decide (cell (set_cell b p.1 p.2 (cell g p.1 p.2)) p.1 p.2
                                   = cell g p.1 p.2)) as [|Hd]; [done|].
    exfalso. apply Hd. unfold cell, set_cell in *.
    rewrite list_lookup_alter, decide_True in Hnz |- * by done.
    destruct (b !! p.1) as [row|]; [simpl in *|done].
    destruct (decide (p.2 < length row)%nat).
    + by rewrite list_lookup_insert_eq.
    + rewrite list_insert_ge in Hnz by lia.
      rewrite list_insert_ge by lia.
      fold (cell b p.1 p.2) in *.
      assert (default 0 (row !! p.2) = 0) as H0
        by (by rewrite (lookup_ge_None_2 row p.2) by lia).
      by rewrite H0 in Hnz.
  - rewrite cell_set_cell_ne by done. apply Hk.
Qed.

(** The trial loop succeeds when the recursive calls return, fail only by
    giving back their grid, and succeed on the digit [d]. *)
Lemma try_digits_finds rec row col nums b d :
  (∀ b1 b2, rec b1 = Some (false, b2) → b2 = b1) →
  (∀ num, num ∈ nums → is_Some (rec (set_cell b row col num))) →
  cell b row col = 0 →
  d ∈ nums → is_valid b d (row, col) = true →
  (∃ b1, rec (set_cell b row col d) = Some (true, b1)) →
  ∃ b', try_digits rec row col nums b = Some (true, b').
Proof.
  intros Hfail Hrec Hc Hd Hv [bd Hbd].
  induction nums as [|num nums IH]; simpl; [by apply elem_of_nil in Hd|].
  assert (d ∈ nums → ∃ b', try_digits rec row col nums b = Some (true, b')) as Hrest.
  { intros Hin. apply IH; [|done]. intros n Hn. apply Hrec. by right. }
  destruct (is_valid b num (row, col)) eqn:Hvn.
  - destruct (Hrec num ltac:(left)) as [[[] b1] Hr]; rewrite Hr; [eauto|].
    apply Hfail in Hr as Heq. subst b1. rewrite set_cell_undo by done.
    apply Hrest. apply elem_of_cons in Hd as [->|Hd]; [congruence|done].
  - apply Hrest. apply elem_of_cons in Hd as [->|Hd]; [congruence|done].
Qed.

(** The search succeeds on every grid that some valid solution extends. *)
Lemma solve_complete fuel b g :
  shape9 b → (empty_count b < fuel)%nat → keeps b g → valid_solution g →
  ∃ b', solve fuel b = Some (true, b').
Proof.
  revert b. induction fuel as [|fuel IH]; intros b Hs Hlt Hk Hv; [lia|].
  rewrite solve_S. destruct (find_empty b) as [[row col]|] eqn:Hf; [|eauto].
  apply find_empty_Some in Hf as [Hp He].
  assert (∀ num, num ∈ digits →
    (empty_count (set_cell b row col num) < fuel)%nat) as Hdec.
  { intros num Hn%elem_of_digits.
    pose proof (empty_count_set_cell b (row, col) num Hs Hp He ltac:(lia)).
    simpl in *. lia. }
  apply (try_digits_finds _ _ _ _ _ (cell g row col)).
  - apply solve_restores.
  - intros num Hn. apply solve_total; [by apply shape9_set_cell|by apply Hdec].
  - done.
  - by apply (valid_solution_digits g (row, col)).
  - by apply (completion_is_valid b g (row, col)).
  - pose proof (valid_solution_digits g (row, col) Hv Hp) as Hd.
    apply IH; [by apply shape9_set_cell|by apply Hdec| |done].
    apply (keeps_set_cell b g (row, col) Hk).
Qed.

Lemma row_grid (row : list Z) :
  length row = 9%nat → row = (λ j, default 0 (row !! j)) <$> seq 0 9.
Proof.
  intros Hlen. apply list_eq. intros j. rewrite list_lookup_fmap.
  destruct (decide (j < 9)%nat) as [Hj|Hj].
  - rewrite lookup_seq_lt by done.
    destruct (lookup_lt_is_Some_2 row j) as [x Hx]; [lia|].
    rewrite Hx. simpl. by rewrite Hx.
  - rewrite lookup_seq_ge by lia. apply lookup_ge_None_2. lia.
Qed.

Lemma shape9_grid b :
  shape9 b → b = (λ i, (λ j, cell b i j) <$> seq 0 9) <$> seq 0 9.
Proof.
  intros Hs. apply list_eq. intros i. rewrite list_lookup_fmap.
  destruct (decide (i < 9)%nat) as [Hi|Hi].
  - destruct (shape9_rows b i Hs Hi) as (row & Hrow & Hlen).
    rewrite Hrow, lookup_seq_lt by done.
    change (Some row = Some ((λ j, cell b i j) <$> seq 0 9)). f_equal.
    rewrite (row_grid row Hlen) at 1. apply Forall_fmap_ext_1, Forall_forall.
    intros j _. by rewrite (cell_lookup _ _ _ _ Hrow).
  - rewrite lookup_seq_ge by lia. destruct Hs as [Hl _].
    apply lookup_ge_None_2. lia.
Qed.

(** The rows of a 9x9 grid, one after the other, are its cells in row-major
    order. *)
Lemma shape9_flat b : shape9 b → mjoin b = values b cells.
Proof.
  intros Hs. rewrite (shape9_grid b Hs) at 1. reflexivity.
Qed.



(** What a successful search leaves behind, for a consistent grid. *)
Lemma solve_sound fuel b g :
  shape9 b → in_range b → uniqueness b →
  solve fuel b = Some (true, g) → valid_solution g.
Proof.
  intros Hs Hr Hu Hsol.
  apply (solve_success (λ b, shape9 b ∧ in_range b ∧ uniqueness b) consistent_place)
    in Hsol as [(Hs' & Hr' & Hu') Hnone]; [|done].
  apply complete_valid; [done..|]. by apply find_empty_None.
Qed.

(** Cells are only ever filled: a cell holds what it held in [b0], or it was
    empty in [b0] and holds a digit 1-9. *)
Lemma fills_place b0 b p num :
  (shape9 b ∧ ∀ i j, cell b i j = cell b0 i j
                     ∨ (cell b0 i j = 0 ∧ 1 ≤ cell b i j ≤ 9)) →
  find_empty b = Some p → num ∈ digits → is_valid b num p = true →
  shape9 (set_cell b p.1 p.2 num)
  ∧ ∀ i j, cell (set_cell b p.1 p.2 num) i j = cell b0 i j
           ∨ (cell b0 i j = 0 ∧ 1 ≤ cell (set_cell b p.1 p.2 num) i j ≤ 9).
Proof.
  intros [Hs Hall] [Hp He]%find_empty_Some Hd%elem_of_digits _.
  split; [by apply shape9_set_cell|]. intros i j.
  destruct (decide ((p.1, p.2) = (i, j))) as [[= <- <-]|Hne].
  - apply elem_of_cells in Hp as [Hi Hj]. rewrite cell_set_cell_eq by done.
    right. split; [|done]. unfold empty_at in He.
    destruct (Hall p.1 p.2) as [Heq|[H0 Hpos]]; [congruence|done].
  - rewrite cell_set_cell_ne by done. apply Hall.
Qed.

(** Outside a 9x9 grid every read gives the default. *)
Lemma cell_outside b i j :
  shape9 b → ¬ ((i < 9)%nat ∧ (j < 9)%nat) → cell b i j = 0.
Proof.
  intros Hs Hout. unfold cell.
  destruct (b !! i) as [row|] eqn:Hrow; [simpl|done].
  pose proof (lookup_lt_Some _ _ _ Hrow) as Hi.
  destruct Hs as [Hl Hr]. rewrite Forall_forall in Hr.
  rewrite lookup_ge_None_2; [done|].
  rewrite (Hr row) by (apply list_elem_of_lookup; eauto). lia.
Qed.

(** [keeps] needs checking on the 81 positions only. *)
Lemma keeps_cells b g :
  shape9 b →
  Forall (λ q, cell b q.1 q.2 ≠ 0 → cell g q.1 q.2 = cell b q.1 q.2) cells →
  keeps b g.
Proof.
  intros Hs Hall i j Hnz. rewrite Forall_forall in Hall.
  apply (Hall (i, j)); [|done]. apply elem_of_cells. simpl.
  destruct (decide ((i < 9)%nat ∧ (j < 9)%nat)) as [|Hout]; [done|].
  by rewrite (cell_outside b i j Hs Hout) in Hnz.
Qed.

(** ** The validator and the selector *)

(** X1: on a position of the grid, [is_valid] accepts a digit exactly when no
    other cell of the position's row, column or 3x3 box holds it. *)
Theorem is_valid_no_conflict b num p :
  p ∈ cells →
  is_valid b num p = true ↔
  ∀ q, q ∈ cells → q ≠ p → same_unit p q → cell b q.1 q.2 ≠ num.
Proof. apply is_valid_spec. Qed.

Lemma is_valid_no_conflict_witness :
  is_valid easy_board 4 (0, 2)%nat = true ↔
  ∀ q, q ∈ cells → q ≠ (0, 2)%nat → same_unit (0, 2)%nat q →
       cell easy_board q.1 q.2 ≠ 4.
Proof.
  apply (is_valid_no_conflict easy_board 4 (0, 2)%nat).
  apply elem_of_cells. simpl. lia.
Defined.

(** X2: the value held at the position itself plays no part in the verdict
    of [is_valid], so an occupied cell can be checked against a replacement
    digit. *)
Theorem is_valid_ignores_own_cell b num p v :
  p ∈ cells → is_valid (set_cell b p.1 p.2 v) num p = is_valid b num p.
Proof.
  intros Hp.
  assert (∀ b1 b2, (∀ q, q ≠ p → cell b1 q.1 q.2 = cell b2 q.1 q.2) →
            is_valid b1 num p = true → is_valid b2 num p = true) as Himp.
  { intros b1 b2 Heq Hv. rewrite is_valid_spec in Hv |- * by done.
    intros q Hq Hne Hsame. rewrite <-Heq by done. by apply Hv. }
  assert (∀ q, q ≠ p → cell (set_cell b p.1 p.2 v) q.1 q.2 = cell b q.1 q.2) as Hsame.
  { intros q Hne. apply cell_set_cell_ne. destruct p, q. simpl. congruence. }
  destruct (is_valid b num p) eqn:Hv.
  - apply (Himp b); [|done]. intros q Hne. by rewrite Hsame.
  - destruct (is_valid (set_cell b p.1 p.2 v) num p) eqn:Hv'; [|done].
    apply (Himp _ b) in Hv'; [congruence|done].
Qed.

Lemma is_valid_ignores_own_cell_witness :
  is_valid (set_cell easy_board 0 0 7) 5 (0, 0)%nat
  = is_valid easy_board 5 (0, 0)%nat.
Proof.
  apply (is_valid_ignores_own_cell easy_board 5 (0, 0)%nat 7).
  apply elem_of_cells. simpl. lia.
Defined.

(** X3: [find_empty] returns [None] exactly when no cell of the grid is 0,
    and a position it returns is an empty cell of the grid. *)
Theorem find_empty_result b :
  (find_empty b = None ↔ ∀ q, q ∈ cells → cell b q.1 q.2 ≠ 0)
  ∧ (∀ p, find_empty b = Some p →
       (p.1 < 9)%nat ∧ (p.2 < 9)%nat ∧ cell b p.1 p.2 = 0).
Proof.
  split; [apply find_empty_None|].
  intros p [Hp He]%find_empty_Some. apply elem_of_cells in Hp as [? ?]. done.
Qed.

(** ** What the entry point returns *)

(** X4: a grid [solve_sudoku] returns is 9x9 without empty cell, holds every
    non-empty entry of the input where the input holds it, and holds a digit
    1-9 wherever the input is empty. *)
Theorem solve_sudoku_extends_input b g :
  solve_sudoku b = Some g →
  shape9 g
  ∧ (∀ q, q ∈ cells → cell g q.1 q.2 ≠ 0)
  ∧ (∀ i j, cell b i j ≠ 0 → cell g i j = cell b i j)
  ∧ (∀ i j, cell b i j = 0 → (i < 9)%nat → (j < 9)%nat → 1 ≤ cell g i j ≤ 9).
Proof.
  intros [Hs Hsol]%solve_sudoku_Some.
  pose proof (solve_keeps _ _ _ _ Hsol) as Hk.
  apply (solve_success _ (fills_place b)) in Hsol as [[Hs' Hall] Hnone];
    [|split; [done|by left]].
  rewrite find_empty_None in Hnone. split_and!; [done|exact Hnone|exact Hk|].
  intros i j H0 Hi Hj. destruct (Hall i j) as [Heq|[_ Hd]]; [|done].
  exfalso. apply (Hnone (i, j)); [apply elem_of_cells; simpl; lia|].
  unfold empty_at. simpl. congruence.
Qed.

Lemma solve_sudoku_extends_input_witness :
  shape9 easy_solution
  ∧ (∀ q, q ∈ cells → cell easy_solution q.1 q.2 ≠ 0)
  ∧ (∀ i j, cell easy_board i j ≠ 0 → cell easy_solution i j = cell easy_board i j)
  ∧ (∀ i j, cell easy_board i j = 0 → (i < 9)%nat → (j < 9)%nat →
            1 ≤ cell easy_solution i j ≤ 9).
Proof.
  apply (solve_sudoku_extends_input easy_board easy_solution).
  vm_compute. reflexivity.
Defined.

(** X5: when some valid solution extends a 9x9 grid, [solve_sudoku] returns
    a grid, not [None]. *)
Theorem solve_sudoku_complete b g :
  shape9 b → keeps b g → valid_solution g → is_Some (solve_sudoku b).
Proof.
  intros Hs Hk Hv.
  destruct (solve_complete search_budget b g) as [b' Hsol]; [done| |done..|].
  { pose proof (empty_count_le_81 b Hs). unfold search_budget. lia. }
  rewrite solve_sudoku_shape, Hsol by done. eauto.
Qed.

Lemma solve_sudoku_complete_witness : is_Some (solve_sudoku easy_board).
Proof.
  assert (shape9 easy_board) as Hs
    by (apply (bool_decide_unpack _); vm_compute; exact I).
  apply (solve_sudoku_complete easy_board easy_solution Hs).
  - apply (keeps_cells _ _ Hs). apply (bool_decide_unpack _). vm_compute. exact I.
  - apply (bool_decide_unpack _). vm_compute. exact I.
Defined.

(** X6: on a 9x9 grid with entries 0-9 and without conflict, [solve_sudoku]
    returns [None] exactly when no valid solution extends the grid. *)
Theorem solve_sudoku_none_iff_unsolvable b :
  shape9 b → in_range b → uniqueness b →
  solve_sudoku b = None ↔ ¬ ∃ g, keeps b g ∧ valid_solution g.
Proof.
  intros Hs Hr Hu. split.
  - intros Hnone (g & Hk & Hv).
    destruct (solve_complete search_budget b g) as [b' Hsol]; [done| |done..|].
    { pose proof (empty_count_le_81 b Hs). unfold search_budget. lia. }
    rewrite solve_sudoku_shape, Hsol in Hnone; done.
  - intros Hno. destruct (solve_sudoku b) as [g|] eqn:Hsol; [|done].
    exfalso. apply Hno. exists g.
    apply solve_sudoku_Some in Hsol as [_ Hsol]. split.
    + by apply (solve_keeps _ _ _ _ Hsol).
    + by apply (solve_sound _ _ _ Hs Hr Hu Hsol).
Qed.

Lemma solve_sudoku_none_iff_unsolvable_witness :
  solve_sudoku forced_first = None
  ∧ ¬ ∃ g, keeps forced_first g ∧ valid_solution g.
Proof.
  assert (solve_sudoku forced_first = None) as Hnone by (vm_compute; reflexivity).
  split; [done|].
  apply (solve_sudoku_none_iff_unsolvable forced_first); [..|done];
    apply (bool_decide_unpack _); vm_compute; exact I.
Defined.


(** X8: a 9x9 grid without empty cell is returned as it is, whatever it
    holds. *)
Theorem solve_sudoku_complete_grid b :
  shape9 b → (∀ q, q ∈ cells → cell b q.1 q.2 ≠ 0) → solve_sudoku b = Some b.
Proof.
  intros Hs Hfull%find_empty_None.
  rewrite solve_sudoku_shape by done. unfold search_budget.
  by rewrite solve_S, Hfull.
Qed.

Lemma solve_sudoku_complete_grid_witness :
  solve_sudoku conflict_grid = Some conflict_grid.
Proof.
  apply (solve_sudoku_complete_grid conflict_grid).
  - apply (bool_decide_unpack _). vm_compute. exact I.
  - assert (Forall (λ q, cell conflict_grid q.1 q.2 ≠ 0) cells) as Hall
      by (apply (bool_decide_unpack _); vm_compute; exact I).
    by rewrite Forall_forall in Hall.
Defined.

(** X9: a grid [solve_sudoku] returns is returned unchanged when it is
    passed to [solve_sudoku] again. *)
Theorem solve_sudoku_idempotent b g :
  solve_sudoku b = Some g → solve_sudoku g = Some g.
Proof.
  intros [Hs Hsol]%solve_sudoku_Some.
  apply (solve_success (λ b1, shape9 b1)) in Hsol as [Hs' Hnone]; [| |done].
  - rewrite solve_sudoku_shape by done. unfold search_budget.
    by rewrite solve_S, Hnone.
  - intros b1 p num Hs1 _ _ _. by apply shape9_set_cell.
Qed.

Lemma solve_sudoku_idempotent_witness :
  solve_sudoku easy_solution = Some easy_solution.
Proof.
  apply (solve_sudoku_idempotent easy_board easy_solution).
  vm_compute. reflexivity.
Defined.

(** ** The complexity summary of 9x9 grids *)

(** X10: for a 9x9 grid the summary counts the positions holding 0; the count
    is at most 81 and the branching factor at most 729. *)
Theorem analyze_board_complexity_bounds b :
  shape9 b →
  empty_cells (analyze_board_complexity b) = occurrences 0 (values b cells)
  ∧ (empty_cells (analyze_board_complexity b) ≤ 81)%nat
  ∧ (branching_factor (analyze_board_complexity b) ≤ 729)%nat.
Proof.
  intros Hs. unfold analyze_board_complexity. simpl.
  pose proof (empty_count_le_81 b Hs).
  rewrite empty_count_flat, (shape9_flat b Hs). rewrite empty_count_flat, (shape9_flat b Hs) in H.
  split_and!; [done|lia..].
Qed.

Lemma analyze_board_complexity_bounds_witness :
  (branching_factor (analyze_board_complexity easy_board) ≤ 729)%nat.
Proof.
  refine (proj2 (proj2 (analyze_board_complexity_bounds easy_board _))).
  apply (bool_decide_unpack _). vm_compute. exact I.
Defined.

(** X11: the summary of a grid [solve_sudoku] returns reports no empty cell,
    the label "Easy" and a branching factor of 0. *)
Theorem analyze_solution b g :
  solve_sudoku b = Some g →
  analyze_board_complexity g
  = {| empty_cells := 0; complexity_estimate := "Easy"; branching_factor := 0 |}.
Proof.
  intros [Hs Hsol]%solve_sudoku_Some.
  apply (solve_success (λ b1, shape9 b1)) in Hsol as [Hs' Hnone];
    [|intros b1 p num Hs1 _ _ _; by apply shape9_set_cell|done].
  rewrite find_empty_None in Hnone.
  assert (empty_count g = 0%nat) as H0.
  { rewrite empty_count_flat, (shape9_flat g Hs'). apply occurrences_0.
    intros (q & Heq & Hq)%list_elem_of_fmap. by apply (Hnone q Hq). }
  unfold analyze_board_complexity. by rewrite H0.
Qed.

Lemma analyze_solution_witness :
  analyze_board_complexity easy_solution
  = {| empty_cells := 0; complexity_estimate := "Easy"; branching_factor := 0 |}.
Proof.
  apply (analyze_solution easy_board easy_solution). vm_compute. reflexivity.
Defined.

(** ** The batch analysis *)

Lemma dict_set_fresh {V} k (v : V) d : k ∉ d.*1 → Batch.dict_set k v d = d ++ [(k, v)].
Proof.
  induction d as [|[k' v'] d IH]; simpl; [done|].
  intros [Hne Hd]%not_elem_of_cons. rewrite decide_False by done.
  by rewrite IH.
Qed.

Lemma allocated_app σ new g : Heap.allocated σ g → Heap.allocated (σ ++ new) g.
Proof.
  intros Ha. eapply Forall_impl; [exact Ha|]. intros l Hl. simpl in *.
  rewrite length_app. lia.
Qed.

Section batch.
Context {time : Type}.
Variable now : nat → time.
Variable elapsed : time → time → time.
Variable round3 : time → time.

Lemma analyze_loop_spec items σ ticks acc results σ' ticks' :
  NoDup items.*1 → (∀ k, k ∈ items.*1 → k ∉ acc.*1) →
  Forall (λ kb, Heap.allocated σ kb.2) items →
  Batch.analyze_loop now elapsed round3 items σ ticks acc = (results, σ', ticks') →
  ∃ new entries,
    σ' = σ ++ new ∧ results = acc ++ entries
    ∧ ticks' = (ticks + 2 * length items)%nat
    ∧ Forall2 (λ kb kr,
         kr.1 = kb.1
         ∧ Heap.deref σ' <$> Batch.solution kr.2 = solve_sudoku (Heap.deref σ kb.2)
         ∧ Batch.complexity_analysis kr.2
           = analyze_board_complexity (Heap.deref σ kb.2)) items entries
    ∧ ∀ i kr, entries !! i = Some kr →
        Batch.time_taken kr.2
        = round3 (elapsed (now (S (ticks + 2 * i))) (now (ticks + 2 * i)%nat)).
Proof.
  revert σ ticks acc.
  induction items as [|[k g] items IH]; intros σ ticks acc Hnd Hfresh Ha; simpl.
  { intros [= <- <- <-]. exists [], []. rewrite !app_nil_r.
    split_and!; [done|done|lia|constructor|]. intros i kr Hi. done. }
  apply NoDup_cons in Hnd as [Hk Hnd]. apply Forall_cons in Ha as [Hg Ha].
  simpl in Hg.
  destruct (heap_solve_sudoku_spec σ g Hg) as (res & new1 & Hcall & Hres & Hres_a).
  rewrite Hcall, dict_set_fresh by (apply Hfresh; left).
  intros Hloop. apply IH in Hloop as (new2 & entries & -> & -> & -> & Hall & Htime).
  - exists (new1 ++ new2), ((k, Batch.Report res
        (round3 (elapsed (now (S ticks)) (now ticks)))
        (analyze_board_complexity (Heap.deref (σ ++ new1) g))) :: entries).
    split_and!.
    + by rewrite app_assoc.
    + by rewrite <-app_assoc.
    + simpl. lia.
    + constructor.
      * simpl. split_and!; [done| |by rewrite deref_app].
        rewrite <-Hres. destruct res as [g1|]; [simpl in *|done]. f_equal.
        by apply deref_app.
      * apply Forall2_same_length_lookup in Hall as [Hlen Hall].
        apply Forall2_same_length_lookup. split; [done|].
        intros i kb kr Hkb Hkr. destruct (Hall i kb kr Hkb Hkr) as (? & Hs & Hc).
        pose proof (Forall_lookup_1 _ _ _ _ Ha Hkb) as Hb. simpl in Hb.
        rewrite (deref_app σ new1 _ Hb) in Hs, Hc. done.
    + intros [|i] kr; simpl.
      * intros [= <-]. simpl. by rewrite Nat.add_0_r.
      * intros Hi. rewrite (Htime i kr Hi). do 3 f_equal; lia.
  - done.
  - intros k' Hk'. rewrite fmap_app. simpl. intros [Hin|Hin%list_elem_of_singleton]%elem_of_app.
    + apply (Hfresh k'); [by right|done].
    + subst k'. done.
  - eapply Forall_impl; [exact Ha|]. intros kb Hkb. by apply allocated_app.
Qed.
End batch.

(** X12: [solve_and_analyze_boards] reports on the labels of its input in
    their order; it writes to no row object of the caller, so every grid of
    the batch holds afterwards what it held before, also when grids share
    rows; each reported solution is what [solve_sudoku] computes from the grid
    as the caller passed it, and each reported summary is the summary of that
    grid. *)
Theorem solve_and_analyze_boards_spec {time} (now : nat → time)
    (elapsed : time → time → time) (round3 : time → time)
    (boards : list (string * Heap.grid)) (σ : Heap.store) results σ' ticks :
  NoDup boards.*1 →
  Forall (λ kb, Heap.allocated σ kb.2) boards →
  Batch.solve_and_analyze_boards now elapsed round3 boards σ = (results, σ', ticks) →
  results.*1 = boards.*1
  ∧ (∃ new, σ' = σ ++ new)
  ∧ Forall (λ kb, Heap.deref σ' kb.2 = Heap.deref σ kb.2) boards
  ∧ Forall2 (λ kb kr,
       Heap.deref σ' <$> Batch.solution kr.2 = solve_sudoku (Heap.deref σ kb.2)
       ∧ Batch.complexity_analysis kr.2
         = analyze_board_complexity (Heap.deref σ kb.2)) boards results.
Proof.
  intros Hnd Ha Hrun.
  apply analyze_loop_spec in Hrun
    as (new & entries & -> & -> & _ & Hall & _); [|done|..|done].
  2:{ intros k _ Hk. by apply elem_of_nil in Hk. }
  simpl. split_and!.
  - clear Ha Hnd. induction Hall as [|kb kr ? ? (Hk & _) _ IH]; simpl; [done|].
    f_equal; [exact Hk|exact IH].
  - by exists new.
  - eapply Forall_impl; [exact Ha|]. intros kb Hkb. by apply deref_app.
  - eapply Forall2_impl; [exact Hall|]. by intros kb kr (_ & ? & ?).
Qed.

Lemma solve_and_analyze_boards_spec_witness :
  (Batch.solve_and_analyze_boards (λ k, k) Nat.sub (λ t, t)
     [("Easy"%string, seq 0 9); ("Again"%string, seq 0 9)] easy_board).1.1.*1
  = ["Easy"%string; "Again"%string].
Proof.
  pose (r := Batch.solve_and_analyze_boards (λ k, k) Nat.sub (λ t, t)
     [("Easy"%string, seq 0 9); ("Again"%string, seq 0 9)] easy_board).
  refine (proj1 (solve_and_analyze_boards_spec (λ k, k) Nat.sub (λ t, t)
    [("Easy"%string, seq 0 9); ("Again"%string, seq 0 9)] easy_board
    r.1.1 r.1.2 r.2 _ _ _)).
  - apply (bool_decide_unpack _). vm_compute. exact I.
  - apply (bool_decide_unpack _). vm_compute. exact I.
  - change (r = (r.1.1, r.1.2, r.2)). clearbody r. by destruct r as [[? ?] ?].
Defined.



(** * Properties of the subset-sum search *)

Example subset_sum_example :
  SubsetSum.subset_sum [3; 34; 4; 12; 5; 2] 9 = (Some [5; 4], [34; 12; 5; 4; 3; 2]).
Proof. vm_compute. reflexivity. Qed.

Lemma total_app l1 l2 :
  SubsetSum.total (l1 ++ l2) = SubsetSum.total l1 + SubsetSum.total l2.
Proof. unfold SubsetSum.total. induction l1 as [|x l1 IH]; simpl; lia. Qed.

Lemma total_Permutation l1 l2 : l1 ≡ₚ l2 → SubsetSum.total l1 = SubsetSum.total l2.
Proof. unfold SubsetSum.total. induction 1; simpl; lia. Qed.

Lemma total_nonneg l : Forall (λ x, 0 ≤ x) l → 0 ≤ SubsetSum.total l.
Proof. unfold SubsetSum.total. induction 1; simpl; lia. Qed.

(** What [backtrack] returns is the subset so far followed by numbers chosen,
    in their order, among those left, which bring the sum to the target. *)
Lemma backtrack_Some target rest current_sum current_subset l :
  SubsetSum.backtrack target rest current_sum current_subset = Some l →
  ∃ chosen, l = current_subset ++ chosen ∧ chosen `sublist_of` rest
            ∧ current_sum + SubsetSum.total chosen = target.
Proof.
  revert current_sum current_subset.
  induction rest as [|x rest IH]; intros cs sub; simpl.
  - case_bool_decide as Heq; [|done]. intros [= <-].
    exists []. rewrite app_nil_r. split_and!; [done|done|simpl; lia].
  - case_bool_decide as Heq.
    { intros [= <-]. exists []. rewrite app_nil_r.
      split_and!; [done|apply sublist_nil_l|simpl; lia]. }
    case_bool_decide as Hgt; [done|].
    destruct (SubsetSum.truthy (SubsetSum.backtrack target rest (cs + x) (sub ++ [x])))
      eqn:Ht.
    + intros (chosen & -> & Hsub & Hsum)%IH. exists (x :: chosen).
      rewrite <-app_assoc. split_and!; [done|by constructor|simpl; lia].
    + intros (chosen & -> & Hsub & Hsum)%IH. exists chosen.
      split_and!; [done|by constructor|done].
Qed.

Lemma backtrack_truthy target rest current_sum current_subset :
  current_subset ≠ [] →
  is_Some (SubsetSum.backtrack target rest current_sum current_subset) →
  SubsetSum.truthy (SubsetSum.backtrack target rest current_sum current_subset) = true.
Proof.
  intros Hne [l Hl]. rewrite Hl.
  apply backtrack_Some in Hl as (chosen & -> & _).
  destruct current_subset; [done|reflexivity].
Qed.

(** Among non-negative numbers the search finds a subset whenever some
    selection of the numbers left brings the sum to the target. *)
Lemma backtrack_complete target rest current_sum current_subset chosen :
  Forall (λ x, 0 ≤ x) rest → chosen `sublist_of` rest →
  current_sum + SubsetSum.total chosen = target →
  is_Some (SubsetSum.backtrack target rest current_sum current_subset).
Proof.
  intros Hpos. revert current_sum current_subset chosen.
  induction Hpos as [|x rest Hx Hpos IH]; intros cs sub chosen Hsub Hsum; simpl.
  - apply sublist_nil_r in Hsub. subst chosen. simpl in Hsum.
    rewrite bool_decide_eq_true_2 by lia. eauto.
  - case_bool_decide as Heq; [eauto|].
    assert (0 ≤ SubsetSum.total chosen) as Hnn.
    { apply total_nonneg, Forall_forall. intros y Hy.
      apply (elem_of_sublist _ _ _ Hy) in Hsub.
      apply elem_of_cons in Hsub as [->|Hin]; [done|].
      rewrite Forall_forall in Hpos. by apply Hpos. }
    rewrite bool_decide_eq_false_2 by lia.
    apply sublist_cons_r in Hsub as [Hsub|(chosen' & -> & Hsub)].
    + destruct (SubsetSum.truthy (SubsetSum.backtrack target rest (cs + x) (sub ++ [x])))
        eqn:Ht.
      * destruct (SubsetSum.backtrack target rest (cs + x) (sub ++ [x])); [eauto|done].
      * by apply (IH _ _ chosen).
    + assert (is_Some (SubsetSum.backtrack target rest (cs + x) (sub ++ [x]))) as Hinc.
      { apply (IH _ _ chosen'); [done|]. simpl in Hsum. lia. }
      rewrite backtrack_truthy; [done| |done]. by destruct sub.
Qed.

Lemma sort_reverse_spec numbers :
  SubsetSum.sort_reverse numbers ≡ₚ numbers
  ∧ Sorted Z.ge (SubsetSum.sort_reverse numbers).
Proof.
  assert (Total Z.ge) as Htot by (intros x y; lia).
  split; [apply merge_sort_Permutation|by apply Sorted_merge_sort].
Qed.

(** X13: a list [subset_sum] returns sums to the target; it is made of
    entries of the input (each used at most as often as it occurs), taken in
    the order of the caller's list after the call, which holds the input's
    numbers in descending order. *)
Theorem subset_sum_sound numbers target l after :
  SubsetSum.subset_sum numbers target = (Some l, after) →
  SubsetSum.total l = target
  ∧ l ⊆+ numbers
  ∧ l `sublist_of` after
  ∧ after ≡ₚ numbers ∧ Sorted Z.ge after.
Proof.
  unfold SubsetSum.subset_sum. intros [= Hb <-].
  destruct (sort_reverse_spec numbers) as [Hperm Hsorted].
  apply backtrack_Some in Hb as (chosen & -> & Hsub & Hsum). simpl in *.
  split_and!; [lia| |done..].
  rewrite <-Hperm. by apply sublist_submseteq.
Qed.

Lemma subset_sum_sound_witness :
  SubsetSum.total [5; 4] = 9
  ∧ [5; 4] ⊆+ [3; 34; 4; 12; 5; 2]
  ∧ [5; 4] `sublist_of` [34; 12; 5; 4; 3; 2]
  ∧ [34; 12; 5; 4; 3; 2] ≡ₚ [3; 34; 4; 12; 5; 2]
  ∧ Sorted Z.ge [34; 12; 5; 4; 3; 2].
Proof.
  apply (subset_sum_sound [3; 34; 4; 12; 5; 2] 9 [5; 4] [34; 12; 5; 4; 3; 2]).
  vm_compute. reflexivity.
Defined.

(** X14: when no number of the input is negative, [subset_sum] returns [None]
    exactly when no selection of entries of the input sums to the target. *)
Theorem subset_sum_none_iff numbers target :
  Forall (λ x, 0 ≤ x) numbers →
  (SubsetSum.subset_sum numbers target).1 = None
  ↔ ¬ ∃ l, l ⊆+ numbers ∧ SubsetSum.total l = target.
Proof.
  intros Hpos. destruct (sort_reverse_spec numbers) as [Hperm _].
  unfold SubsetSum.subset_sum. simpl. split.
  - intros Hnone (l & Hl & Hsum).
    rewrite <-Hperm in Hl. apply submseteq_sublist_r in Hl as (l' & Hll' & Hsub).
    destruct (backtrack_complete target (SubsetSum.sort_reverse numbers) 0 [] l')
      as [r Hr]; [by rewrite Hperm|done| |congruence].
    rewrite <-(total_Permutation _ _ Hll'). lia.
  - intros Hno.
    destruct (SubsetSum.backtrack target (SubsetSum.sort_reverse numbers) 0 [])
      as [l|] eqn:Hb; [|done].
    exfalso. apply Hno. exists l.
    apply backtrack_Some in Hb as (chosen & -> & Hsub & Hsum). simpl in *.
    split; [|lia]. rewrite <-Hperm. by apply sublist_submseteq.
Qed.

Lemma subset_sum_none_iff_witness :
  (SubsetSum.subset_sum [3; 34; 4; 12; 5; 2] 1).1 = None
  ↔ ¬ ∃ l, l ⊆+ [3; 34; 4; 12; 5; 2] ∧ SubsetSum.total l = 1.
Proof.
  apply (subset_sum_none_iff [3; 34; 4; 12; 5; 2] 1).
  repeat constructor; lia.
Defined.


(** * Properties of the N-Queens search *)

Global Arguments NQueens.is_safe : simpl never.

Example solve_4_queens :
  NQueens.solve_n_queens 4
  = Some [[0; 1; 0; 0]; [0; 0; 0; 1]; [1; 0; 0; 0]; [0; 0; 1; 0]].
Proof. vm_compute. reflexivity. Qed.

Example solve_3_queens : NQueens.solve_n_queens 3 = None.
Proof. vm_compute. reflexivity. Qed.

Lemma diag_left_elem row col i j :
  (i, j) ∈ zip (reverse (seq 0 row)) (reverse (seq 0 col))
  ↔ (i < row)%nat ∧ (j < col)%nat ∧ (i + col = row + j)%nat.
Proof.
  rewrite elem_of_lookup_zip_with. split.
  - intros (k & x & y & [= -> ->] & Hx & Hy).
    apply reverse_lookup_Some in Hx as [Hx Hk1].
    apply reverse_lookup_Some in Hy as [Hy Hk2].
    rewrite length_seq in *. apply lookup_seq in Hx as [-> _].
    apply lookup_seq in Hy as [-> _]. lia.
  - intros (Hi & Hj & Heq). exists (row - S i)%nat, i, j. split_and!; [done|..].
    + apply reverse_lookup_Some. rewrite length_seq. split; [|lia].
      apply lookup_seq. lia.
    + apply reverse_lookup_Some. rewrite length_seq. split; [|lia].
      apply lookup_seq. lia.
Qed.

Lemma diag_right_elem n row col i j :
  (i, j) ∈ zip (reverse (seq 0 row)) (seq (col + 1) (n - (col + 1)))
  ↔ (i < row)%nat ∧ (col < j)%nat ∧ (j < n)%nat ∧ (i + j = row + col)%nat.
Proof.
  rewrite elem_of_lookup_zip_with. split.
  - intros (k & x & y & [= -> ->] & Hx & Hy).
    apply reverse_lookup_Some in Hx as [Hx Hk1].
    rewrite length_seq in *. apply lookup_seq in Hx as [-> _].
    apply lookup_seq in Hy as [-> Hk2]. lia.
  - intros (Hi & Hj & Hn & Heq). exists (row - S i)%nat, i, j. split_and!; [done|..].
    + apply reverse_lookup_Some. rewrite length_seq. split; [|lia].
      apply lookup_seq. lia.
    + apply lookup_seq. lia.
Qed.

Lemma cell_set_cell_in b i j v row :
  b !! i = Some row → (j < length row)%nat → cell (set_cell b i j v) i j = v.
Proof.
  intros Hrow Hj. unfold cell, set_cell.
  rewrite list_lookup_alter, decide_True by done. rewrite Hrow. simpl.
  by rewrite list_lookup_insert_eq.
Qed.

(** On the board of a partial placement, [is_safe] accepts a column exactly
    when a queen there is attacked by none of the queens placed. *)
Lemma is_safe_spec n row f b col :
  (row ≤ n)%nat → (col < n)%nat →
  NQueens.placed n row f → NQueens.shows n row f b →
  NQueens.is_safe n b row col = true
  ↔ ∀ i, (i < row)%nat → NQueens.compatible i (f i) row col.
Proof.
  intros Hrow Hcol [Hf _] (_ & _ & Hcell).
  assert (∀ i j, (i < row)%nat → (j < n)%nat → cell b i j = 1 ↔ j = f i) as Hq.
  { intros i j Hi Hj. rewrite (Hcell i j) by lia.
    case_bool_decide as Hd; [split; [tauto|done]|split; [done|]].
    intros ->. exfalso. by apply Hd. }
  unfold NQueens.is_safe. rewrite !andb_true_iff, !forallb_forall. split.
  - intros [[Hc Hl] Hr] i Hi. pose proof (Hf i Hi) as Hfi.
    unfold NQueens.compatible. split_and!.
    + intros Heq. specialize (Hc i). rewrite <-list_elem_of_In, elem_of_seq in Hc.
      specialize (Hc ltac:(lia)). rewrite bool_decide_eq_true_2 in Hc; [done|].
      apply Hq; [done..|]. done.
    + intros Heq. specialize (Hl (i, f i)).
      rewrite <-list_elem_of_In, diag_left_elem in Hl.
      specialize (Hl ltac:(lia)). simpl in Hl.
      rewrite bool_decide_eq_true_2 in Hl; [done|]. by apply Hq.
    + intros Heq. specialize (Hr (i, f i)).
      rewrite <-list_elem_of_In, diag_right_elem in Hr.
      specialize (Hr ltac:(lia)). simpl in Hr.
      rewrite bool_decide_eq_true_2 in Hr; [done|]. by apply Hq.
  - intros Hall. split_and!.
    + intros i Hi%list_elem_of_In%elem_of_seq.
      apply negb_true_iff, bool_decide_eq_false_2. intros Hone.
      apply Hq in Hone; [|lia..]. destruct (Hall i ltac:(lia)) as (? & _). done.
    + intros [i j] (Hi & Hj & Heq)%list_elem_of_In%diag_left_elem.
      apply negb_true_iff, bool_decide_eq_false_2. simpl. intros Hone.
      apply Hq in Hone; [|lia..]. destruct (Hall i Hi) as (_ & ? & _). lia.
    + intros [i j] (Hi & Hj & Hn & Heq)%list_elem_of_In%diag_right_elem.
      apply negb_true_iff, bool_decide_eq_false_2. simpl. intros Hone.
      apply Hq in Hone; [|lia..]. destruct (Hall i Hi) as (_ & _ & ?). lia.
Qed.

Lemma shows_place n row f b col :
  (row < n)%nat → (col < n)%nat → NQueens.shows n row f b →
  NQueens.shows n (S row) (NQueens.place f row col) (set_cell b row col 1).
Proof.
  intros Hrow Hcol (Hl & Hr & Hcell). split_and!.
  - by rewrite length_set_cell.
  - unfold set_cell. apply Forall_alter; [done|].
    intros r _ Hlen. by rewrite length_insert.
  - intros i j Hi Hj. unfold NQueens.place.
    destruct (decide ((row, col) = (i, j))) as [[= <- <-]|Hne].
    + destruct (lookup_lt_is_Some_2 b row) as [r Hlook]; [lia|].
      rewrite (cell_set_cell_in _ _ _ _ r Hlook).
      2:{ rewrite Forall_forall in Hr. rewrite (Hr r); [done|].
          apply list_elem_of_lookup. eauto. }
      rewrite (bool_decide_eq_true_2 (row = row)) by done.
      rewrite bool_decide_eq_true_2; [done|]. split; [lia|done].
    + rewrite cell_set_cell_ne, Hcell by done.
      destruct (decide (i = row)) as [->|Hi'].
      * rewrite bool_decide_eq_false_2 by lia.
        rewrite (bool_decide_eq_true_2 (row = row)) by done.
        rewrite bool_decide_eq_false_2; [done|]. intros [_ ->]. done.
      * rewrite (bool_decide_eq_false_2 (i = row)) by done.
        rewrite (bool_decide_ext ((i < row)%nat ∧ j = f i)
                   ((i < S row)%nat ∧ j = f i)) by lia. done.
Qed.

Lemma placed_place n row f col :
  (col < n)%nat → NQueens.placed n row f →
  (∀ i, (i < row)%nat → NQueens.compatible i (f i) row col) →
  NQueens.placed n (S row) (NQueens.place f row col).
Proof.
  intros Hcol [Hf Hc] Hall. unfold NQueens.place. split.
  - intros i Hi. case_bool_decide; [done|]. apply Hf. lia.
  - intros i i' Hlt Hi'. rewrite (bool_decide_eq_false_2 (i = row)) by lia.
    case_bool_decide as Heq; [subst i'; apply Hall; lia|]. apply Hc; lia.
Qed.

Lemma extends_place row f col g :
  NQueens.extends (S row) (NQueens.place f row col) g
  ↔ NQueens.extends row f g ∧ g row = col.
Proof.
  unfold NQueens.extends, NQueens.place. split.
  - intros H. split.
    + intros i Hi. rewrite H by lia. by rewrite bool_decide_eq_false_2 by lia.
    + rewrite H by lia. by rewrite bool_decide_eq_true_2.
  - intros [H Hrow] i Hi. case_bool_decide as Heq; [by subst i|].
    apply H. lia.
Qed.

Lemma seq_sorted a n : StronglySorted lt (seq a n).
Proof.
  revert a. induction n as [|n IH]; intros a; simpl; constructor; [apply IH|].
  apply Forall_forall. intros x Hx%elem_of_seq. lia.
Qed.

(** The loop over the columns of a row, tried in increasing order, given what
    the recursive calls come to: it fails, with the board as it was, when no
    placement extending [f] puts the queen of this row in one of the columns
    tried; it succeeds with the first such placement. *)
Lemma try_cols_spec rec n row f cols b :
  (row < n)%nat → NQueens.placed n row f → NQueens.shows n row f b →
  (∀ col, col ∈ cols → (col < n)%nat) → StronglySorted lt cols →
  (∀ col, col ∈ cols → NQueens.is_safe n b row col = true →
     NQueens.search_result n (S row) (NQueens.place f row col)
       (set_cell b row col 1) (rec (set_cell b row col 1))) →
  ∃ r b', NQueens.try_cols rec n row cols b = Some (r, b')
    ∧ (r = false → b' = b
         ∧ ¬ ∃ g, NQueens.extends row f g ∧ g row ∈ cols ∧ NQueens.placed n n g)
    ∧ (r = true → ∃ g, NQueens.extends row f g ∧ NQueens.placed n n g
                       ∧ NQueens.shows n n g b'
                       ∧ ∀ g', NQueens.extends row f g' → g' row ∈ cols →
                               NQueens.placed n n g' → NQueens.lex_le n g g').
Proof.
  intros Hrow Hp Hs.
  induction cols as [|col cols IH]; intros Hcols Hsorted Hrec; simpl.
  { exists false, b. split_and!; [done| |done]. intros _. split; [done|].
    intros (g & _ & Hin & _). by apply elem_of_nil in Hin. }
  apply StronglySorted_cons in Hsorted as [Hlt Hsorted].
  rewrite Forall_forall in Hlt.
  destruct IH as (r & b' & Htry & Hfalse & Htrue); [|done|..].
  { intros c Hc. apply Hcols. by right. }
  { intros c Hc. apply Hrec. by right. }
  assert (col < n)%nat as Hcol by (apply Hcols; left).
  assert (cell b row col = 0) as Hzero.
  { destruct Hs as (_ & _ & Hcell). rewrite Hcell by done.
    rewrite bool_decide_eq_false_2; [done|lia]. }
  assert (r = true → ∀ g',
    NQueens.extends row f g' → g' row = col → NQueens.placed n n g' →
    NQueens.is_safe n b row col = true) as Hcompat.
  { intros _ g' Hext Heq Hg'.
    apply (is_safe_spec n row f); [lia|done..|]. intros i Hi.
    destruct Hg' as [_ Hg']. specialize (Hg' i row Hi Hrow).
    by rewrite (Hext i Hi), Heq in Hg'. }
  destruct (NQueens.is_safe n b row col) eqn:Hsafe.
  - destruct (Hrec col ltac:(left) Hsafe) as (r1 & b1 & Hr1 & Hf1 & Ht1).
    rewrite Hr1. destruct r1.
    + exists true, b1. split_and!; [done|done|]. intros _.
      destruct (Ht1 eq_refl) as (g & [Hext Hgrow]%extends_place & Hg & Hshow & Hleast).
      exists g. split_and!; [done..|].
      intros g' Hext' [Heq|Hin]%elem_of_cons Hg'.
      * apply Hleast; [|done]. by apply extends_place.
      * right. exists row. split_and!; [done| |].
        -- intros k Hk. by rewrite Hext, Hext'.
        -- rewrite Hgrow. by apply Hlt.
    + destruct (Hf1 eq_refl) as [-> Hno]. rewrite set_cell_undo by done.
      exists r, b'. split_and!; [done| |].
      * intros Hr. destruct (Hfalse Hr) as [-> Hno']. split; [done|].
        intros (g & Hext & [Heq|Hin]%elem_of_cons & Hg).
        -- apply Hno. exists g. split; [by apply extends_place|done].
        -- apply Hno'. eauto.
      * intros Hr. destruct (Htrue Hr) as (g & Hext & Hg & Hshow & Hleast).
        exists g. split_and!; [done..|].
        intros g' Hext' [Heq|Hin]%elem_of_cons Hg'; [|by apply Hleast].
        exfalso. apply Hno. exists g'. split; [by apply extends_place|done].
  - exists r, b'. split_and!; [done| |].
    + intros Hr. destruct (Hfalse Hr) as [-> Hno']. split; [done|].
      intros (g & Hext & [Heq|Hin]%elem_of_cons & Hg); [|apply Hno'; eauto].
      assert (NQueens.is_safe n b row col = true) as Hsafe'; [|congruence].
      apply (is_safe_spec n row f); [lia|done..|]. intros i Hi.
      destruct Hg as [_ Hg]. specialize (Hg i row Hi Hrow).
      by rewrite (Hext i Hi), Heq in Hg.
    + intros Hr. destruct (Htrue Hr) as (g & Hext & Hg & Hshow & Hleast).
      exists g. split_and!; [done..|].
      intros g' Hext' [Heq|Hin]%elem_of_cons Hg'; [|by apply Hleast].
      pose proof (Hcompat Hr g' Hext' Heq Hg'). congruence.
Qed.

Lemma solve_spec fuel n row f b :
  (row ≤ n)%nat → (n - row < fuel)%nat →
  NQueens.placed n row f → NQueens.shows n row f b →
  NQueens.search_result n row f b (NQueens.solve fuel n b row).
Proof.
  revert row f b. induction fuel as [|fuel IH]; intros row f b Hrow Hfuel Hp Hs; [lia|].
  simpl. case_bool_decide as Hge.
  - assert (row = n) as -> by lia. exists true, b.
    split_and!; [done|done|]. intros _. exists f. split_and!; [|done..|].
    + by intros i Hi.
    + intros g' Hext _. left. intros i Hi. by rewrite Hext.
  - destruct (try_cols_spec (λ b', NQueens.solve fuel n b' (row + 1)) n row f
        (seq 0 n) b) as (r & b' & Htry & Hfalse & Htrue);
      [lia|done..| |apply seq_sorted| |].
    + intros col Hc%elem_of_seq. lia.
    + intros col Hc%elem_of_seq Hsafe. rewrite Nat.add_1_r.
      apply IH; [lia|lia| |apply shows_place; [lia..|done]].
      apply placed_place; [lia|done|].
      by apply (is_safe_spec n row f b col); [lia..|done|done|].
    + assert (∀ g, NQueens.placed n n g → g row ∈ seq 0 n) as Hin.
      { intros g [Hg _]. apply elem_of_seq. specialize (Hg row). lia. }
      exists r, b'. split_and!; [done| |].
      * intros Hr. destruct (Hfalse Hr) as [-> Hno]. split; [done|].
        intros (g & Hext & Hg). apply Hno. exists g. split_and!; [done| |done].
        by apply Hin.
      * intros Hr. destruct (Htrue Hr) as (g & Hext & Hg & Hshow & Hleast).
        exists g. split_and!; [done..|]. intros g' Hext' Hg'.
        apply Hleast; [done| |done]. by apply Hin.
Qed.

Lemma shows_empty n f : NQueens.shows n 0 f (replicate n (replicate n 0)).
Proof.
  split_and!.
  - by rewrite length_replicate.
  - apply Forall_replicate. by rewrite length_replicate.
  - intros i j Hi Hj. unfold cell. rewrite lookup_replicate_2 by done. simpl.
    rewrite lookup_replicate_2 by done. simpl.
    destruct (bool_decide ((i < 0)%nat ∧ j = f i)) eqn:Hd; [|done].
    apply bool_decide_eq_true in Hd. lia.
Qed.

Lemma solve_n_queens_spec n :
  NQueens.search_result n 0 (λ _, 0%nat) (replicate n (replicate n 0))
    (NQueens.solve (S n) n (replicate n (replicate n 0)) 0).
Proof.
  apply solve_spec; [lia|lia| |apply shows_empty].
  split; [intros i Hi; lia|intros i i' _ Hi'; lia].
Qed.

(** X16: a board [solve_n_queens] returns is the n x n board of 0 and 1
    that holds exactly one queen in each row, at columns such that no two
    queens share a column, a diagonal or an anti-diagonal. *)
Theorem solve_n_queens_sound n b :
  NQueens.solve_n_queens n = Some b →
  ∃ g, NQueens.placed n n g ∧ NQueens.shows n n g b.
Proof.
  unfold NQueens.solve_n_queens.
  destruct (solve_n_queens_spec n) as (r & b' & Hsol & _ & Htrue).
  rewrite Hsol. destruct r; [|done]. intros [= <-].
  destruct (Htrue eq_refl) as (g & _ & Hg & Hshow & _). eauto.
Qed.

Lemma solve_n_queens_sound_witness :
  ∃ g, NQueens.placed 4 4 g
       ∧ NQueens.shows 4 4 g [[0; 1; 0; 0]; [0; 0; 0; 1]; [1; 0; 0; 0]; [0; 0; 1; 0]].
Proof.
  apply (solve_n_queens_sound 4). vm_compute. reflexivity.
Defined.

(** X17: [solve_n_queens] returns [None] exactly when n queens cannot be
    placed on the n x n board without two of them attacking each other. *)
Theorem solve_n_queens_none_iff n :
  NQueens.solve_n_queens n = None ↔ ¬ ∃ g, NQueens.placed n n g.
Proof.
  unfold NQueens.solve_n_queens.
  destruct (solve_n_queens_spec n) as (r & b' & Hsol & Hfalse & Htrue).
  rewrite Hsol. destruct r.
  - split; [done|]. intros Hno. exfalso. apply Hno.
    destruct (Htrue eq_refl) as (g & _ & Hg & _). eauto.
  - split; [|done]. intros _ (g & Hg).
    destruct (Hfalse eq_refl) as [_ Hno]. apply Hno. exists g. split; [|done].
    intros i Hi. lia.
Qed.

(** X18: the board [solve_n_queens] returns is that of the first placement
    in lexicographic order of the queens' columns, row by row from the top,
    among all placements of n queens that do not attack each other. *)
Theorem solve_n_queens_first n b g :
  NQueens.solve_n_queens n = Some b → NQueens.shows n n g b →
  ∀ g', NQueens.placed n n g' → NQueens.lex_le n g g'.
Proof.
  unfold NQueens.solve_n_queens.
  destruct (solve_n_queens_spec n) as (r & b' & Hsol & _ & Htrue).
  rewrite Hsol. destruct r; [|done]. intros [= <-] Hshow g' Hg'.
  destruct (Htrue eq_refl) as (g0 & _ & [Hg0 _] & Hshow0 & Hleast).
  assert (∀ i, (i < n)%nat → g i = g0 i) as Heq.
  { intros i Hi. destruct Hshow as (_ & _ & Hc), Hshow0 as (_ & _ & Hc0).
    specialize (Hc i (g0 i) Hi (Hg0 i Hi)).
    rewrite (Hc0 i (g0 i) Hi (Hg0 i Hi)) in Hc.
    rewrite bool_decide_eq_true_2 in Hc by done.
    case_bool_decide as Hd; [|done]. by destruct Hd as [_ ->]. }
  destruct (Hleast g') as [Hall|(i & Hi & Hpre & Hlt)]; [intros i Hi; lia|done|..].
  - left. intros i Hi. by rewrite Heq, Hall.
  - right. exists i. split_and!; [done| |].
    + intros k Hk. rewrite Heq by lia. by apply Hpre.
    + by rewrite Heq.
Qed.

Lemma solve_n_queens_first_witness :
  NQueens.lex_le 4 (λ i, nth i [1; 3; 0; 2] 0)%nat (λ i, nth i [2; 0; 3; 1] 0)%nat.
Proof.
  apply (solve_n_queens_first 4
           [[0; 1; 0; 0]; [0; 0; 0; 1]; [1; 0; 0; 0]; [0; 0; 1; 0]]).
  - vm_compute. reflexivity.
  - split_and!; [reflexivity|repeat constructor|].
    intros i j Hi Hj.
    do 4 (destruct i as [|i];
          [do 4 (destruct j as [|j]; [vm_compute; reflexivity|]); lia|]).
    lia.
  - split.
    + intros i Hi. do 4 (destruct i as [|i]; [simpl; lia|]). lia.
    + intros i i' Hlt Hi'. unfold NQueens.compatible.
      do 4 (destruct i' as [|i'];
            [do 4 (destruct i as [|i]; [simpl; lia|]); lia|]).
      lia.
Defined.
